(** * A chunk-level deduplicating file store: model of [server.js]

    The development embeds the upload, download, list and bootstrap paths of
    [server.js] over an explicit state made of the two in-memory indexes
    ([fileMeta], [fileSignatures]) and the two directories the server owns
    ([chunks/], [manifests/]).  Library code the server calls is modelled as
    follows:

    - [crypto.createHash('sha256')] is a parameter [sha256]; the hexadecimal
      rendering of the digest is computed by [hex];
    - [JSON.stringify] / [JSON.parse] (followed by the destructuring of the
      three manifest fields) are parameters related by a round-trip law
      and, where manifest files cut short matter, by the law that a text
      cut short does not parse;
    - [path.basename] is the POSIX algorithm of Node: skip the trailing run
      of ['/'], then take characters back to the previous ['/'];
    - [fs.writeFileSync] either replaces the file or throws; a call that
      throws leaves the directory as it was (the open failed) or leaves the
      file cut short (it was created or emptied, then the write failed).
      Which one happens is decided by an oracle;
    - multer's [upload.single] hands the handler no file for a part without
      a file name;
    - [res.set] throws on a header value Node refuses.

    File names and texts are strings of 8-bit characters. *)

From Stdlib Require Import Strings.Ascii Strings.String Strings.Byte.
From stdpp Require Import gmap strings list fin_maps.

Local Open Scope stdpp_scope.

(** ** Strings *)

Module Str.

Definition chars (s : string) : list ascii := list_ascii_of_string s.
Definition of_chars (l : list ascii) : string := string_of_list_ascii l.

Definition slash : ascii := "/"%char.
Definition dash : ascii := "-"%char.

(** [s.endsWith(suffix)] *)
Fixpoint starts_with (p l : list ascii) : bool :=
  match p, l with
  | [], _ => true
  | a :: p', b :: l' => Ascii.eqb a b && starts_with p' l'
  | _ :: _, [] => false
  end.

Definition endsWith (s suffix : string) : bool :=
  starts_with (reverse (chars suffix)) (reverse (chars s)).

(** [arr.join(sep)] *)
Fixpoint join (sep : string) (l : list string) : string :=
  match l with
  | [] => ""
  | x :: r => match r with
              | [] => x
              | _ :: _ => x +:+ sep +:+ join sep r
              end
  end.

(** [path.basename(p)] (POSIX): the backward scan of Node's implementation,
    run over the reversed character list. *)
Fixpoint skip_slashes (r : list ascii) : list ascii :=
  match r with
  | c :: r' => if Ascii.eqb c slash then skip_slashes r' else r
  | [] => []
  end.

Fixpoint upto_slash (r : list ascii) : list ascii :=
  match r with
  | c :: r' => if Ascii.eqb c slash then [] else c :: upto_slash r'
  | [] => []
  end.

Definition basename (p : string) : string :=
  of_chars (reverse (upto_slash (skip_slashes (reverse (chars p))))).

(** Lower-case hexadecimal rendering of a byte string, [digest('hex')]. *)
Definition hex_digit (n : N) : ascii :=
  match n with
  | 0 => "0" | 1 => "1" | 2 => "2" | 3 => "3" | 4 => "4" | 5 => "5"
  | 6 => "6" | 7 => "7" | 8 => "8" | 9 => "9" | 10 => "a" | 11 => "b"
  | 12 => "c" | 13 => "d" | 14 => "e" | _ => "f"
  end%N%char.

Definition hex_byte (b : byte) : list ascii :=
  [hex_digit (Byte.to_N b / 16); hex_digit (Byte.to_N b mod 16)].

Definition hex (l : list byte) : string :=
  of_chars (concat (map hex_byte l)).

Definition has_char (c : ascii) (s : string) : Prop := c ∈ chars s.

(** The first [n] characters of [s]: what reached a file when a write of
    [s] stopped after [n] of them. *)
Definition truncate (n : nat) (s : string) : string := of_chars (take n (chars s)).

(** The double quote character. *)
Definition dquote : string := String "034"%char EmptyString.

(** A string that can stand between two separators of [join]. *)
Definition word (s : string) : Prop := s ≠ "" ∧ ¬ has_char dash s.

End Str.

(** ** The chunker (server.js, [chunkAndHash]) *)

Record chunk := Chunk { hash : string; data : list byte }.

(** [const CHUNK_SIZE = 10 * 10; // 1 MB] *)
Definition CHUNK_SIZE : nat := 10 * 10.

(** [buf.slice(a, b)] for [0 <= a <= b]; the end is clipped to the buffer. *)
Definition slice (buf : list byte) (a b : nat) : list byte :=
  take (b - a) (drop a buf).

Section Chunker.
Variable sha256 : list byte → list byte.
Variable chunk_size : nat.

Definition digest (d : list byte) : string := Str.hex (sha256 d).

(** The loop [for (off = 0; off < buf.length; off += CHUNK_SIZE)].  Each
    unit of fuel pays for one test of the loop condition followed by one
    body; [None] means the fuel ran out with the condition still true. *)
Fixpoint chunk_loop (fuel off : nat) (buf : list byte) : option (list chunk) :=
  if off <? length buf then
    match fuel with
    | 0 => None
    | S fuel' =>
        let sl := slice buf off (off + chunk_size) in
        cons (Chunk (digest sl) sl) <$> chunk_loop fuel' (off + chunk_size) buf
    end
  else Some [].

Definition chunkAndHash (buf : list byte) : option (list chunk) :=
  chunk_loop (length buf) 0 buf.
End Chunker.

(** The ceiling of [len / chunk_size], and the slice of [buf] that starts at
    the [i]-th multiple of [chunk_size]: the number of chunks and the
    [i]-th chunk that [chunkAndHash] is shown to produce. *)
Definition chunk_count (chunk_size len : nat) : nat :=
  (len + chunk_size - 1) / chunk_size.

Definition piece (chunk_size : nat) (buf : list byte) (i : nat) : list byte :=
  slice buf (i * chunk_size) (i * chunk_size + chunk_size).

(** ** State, file system and request monad *)

(** A value of [fileMeta]: [{ signature, chunkHashes }]. *)
Record meta := Meta { signature : string; chunkHashes : list string }.

(** The object written to a manifest file:
    [{ filename, signature, chunkHashes }]. *)
Record manifest := Manifest {
  json_filename : string;
  json_signature : string;
  json_chunkHashes : list string }.

(** The two indexes of section 2 of the source and the two directories of
    section 1, each directory as a map from the name of a file in it to the
    contents of that file. *)
Record state := State {
  fileMeta : gmap string meta;
  fileSignatures : gset string;
  chunksDir : gmap string (list byte);
  manifestDir : gmap string string }.

Inductive dir := Chunks | Manifests.

(** [io d name = true] when a [fs.writeFileSync] of [name] in [d] succeeds.
    For a call that throws, [leaves io d name] is [None] when the file is
    as it was before the call, and [Some n] when the file was created or
    emptied and holds the first [n] bytes of the data (all of them when
    [n] is not below their number). *)
Record oracle := Oracle {
  write_ok :> dir → string → bool;
  leaves : dir → string → option nat }.

Inductive error :=
  | InvalidInput                        (* 400, no file in the request *)
  | NotFound                            (* 404, unknown filename *)
  | CorruptStore                        (* 500, from the catch of download *)
  | MissingChunk (h : string)           (* thrown inside download's try *)
  | ReadFailed (d : dir) (name : string)
  | WriteFailed (d : dir) (name : string) (* fs.writeFileSync threw *)
  | InvalidHeader (value : string)      (* res.set threw *)
  | Diverged.                           (* the chunking loop never exits *)

Inductive outcome (A : Type) :=
  | Ok (a : A)
  | Err (e : error).
Arguments Ok {A} a.
Arguments Err {A} e.

Definition M (A : Type) : Type := state → state * outcome A.

Definition ret {A} (a : A) : M A := λ st, (st, Ok a).
Definition throw {A} (e : error) : M A := λ st, (st, Err e).
Definition bind {A B} (c : M A) (k : A → M B) : M B :=
  λ st, match c st with
        | (st', Ok a) => k a st'
        | (st', Err e) => (st', Err e)
        end.
Definition catch {A} (c : M A) (h : error → M A) : M A :=
  λ st, match c st with
        | (st', Ok a) => (st', Ok a)
        | (st', Err e) => h e st'
        end.

Declare Scope req_scope.
Delimit Scope req_scope with req.
Notation "x <- c ;; k" := (bind c (λ x, k))
  (at level 20, c at level 99, k at level 200, only parsing) : req_scope.
Notation "c ;; k" := (bind c (λ _, k))
  (at level 100, k at level 200, right associativity, only parsing) : req_scope.
Local Open Scope req_scope.

(** [fileSignatures.has], [fileSignatures.add], [fileMeta.get],
    [fileMeta.set] *)
Definition Set_has (sig : string) : M bool :=
  λ st, (st, Ok (bool_decide (sig ∈ fileSignatures st))).
Definition Set_add (sig : string) : M unit :=
  λ st, (State (fileMeta st) ({[sig]} ∪ fileSignatures st)
               (chunksDir st) (manifestDir st), Ok tt).
Definition Map_get (name : string) : M (option meta) :=
  λ st, (st, Ok (fileMeta st !! name)).
Definition Map_set (name : string) (m : meta) : M unit :=
  λ st, (State (<[name := m]> (fileMeta st)) (fileSignatures st)
               (chunksDir st) (manifestDir st), Ok tt).

(** [fs.existsSync], [fs.readFileSync], [fs.writeFileSync] on [chunks/] and
    [fs.writeFileSync] on [manifests/]. *)
Definition existsSync (name : string) : M bool :=
  λ st, (st, Ok (bool_decide (is_Some (chunksDir st !! name)))).
Definition readFileSync (name : string) : M (list byte) :=
  λ st, match chunksDir st !! name with
        | Some d => (st, Ok d)
        | None => (st, Err (ReadFailed Chunks name))
        end.
Definition writeChunkSync (io : oracle) (name : string) (d : list byte) : M unit :=
  λ st, if io Chunks name
        then (State (fileMeta st) (fileSignatures st)
                    (<[name := d]> (chunksDir st)) (manifestDir st), Ok tt)
        else match leaves io Chunks name with
             | None => (st, Err (WriteFailed Chunks name))
             | Some n =>
                 (State (fileMeta st) (fileSignatures st)
                        (<[name := take n d]> (chunksDir st)) (manifestDir st),
                  Err (WriteFailed Chunks name))
             end.
Definition writeManifestSync (io : oracle) (name : string) (t : string) : M unit :=
  λ st, if io Manifests name
        then (State (fileMeta st) (fileSignatures st)
                    (chunksDir st) (<[name := t]> (manifestDir st)), Ok tt)
        else match leaves io Manifests name with
             | None => (st, Err (WriteFailed Manifests name))
             | Some n =>
                 (State (fileMeta st) (fileSignatures st) (chunksDir st)
                        (<[name := Str.truncate n t]> (manifestDir st)),
                  Err (WriteFailed Manifests name))
             end.

(** The check of Node's [setHeader] on a header value: a character other
    than TAB, 0x20-0x7e and 0x80-0xff is refused.  (So is a character above
    0xff, which an 8-bit string does not hold.) *)
Definition header_char (c : ascii) : bool :=
  let n := nat_of_ascii c in
  (n =? 9) || ((32 <=? n) && (n <=? 126)) || (128 <=? n).

Definition header_ok (value : string) : bool :=
  forallb header_char (Str.chars value).

(** [res.set({ 'Content-Type': ..., 'Content-Disposition': ... })] *)
Definition res_set (content_type content_disposition : string) : M unit :=
  λ st, if negb (header_ok content_type) then
          (st, Err (InvalidHeader content_type))
        else if negb (header_ok content_disposition) then
          (st, Err (InvalidHeader content_disposition))
        else (st, Ok tt).

(** ** The server *)

(** [req.file] of multer: the uploaded buffer and the client's file name. *)
Record file := File { buffer : list byte; originalname : string }.

(** [upload.single('pdfFile')]: multer attaches no file for a part that
    carries no file name, and [req.file] stays undefined. *)
Definition multer_single (filename : string) (content : list byte) : option file :=
  match filename with
  | EmptyString => None
  | String _ _ => Some (File content filename)
  end.

(** The JSON body of a successful upload.  [wroteSomething] selects between
    the two values of [message]. *)
Record response := Response {
  wroteSomething : bool;
  filename : string;
  chunkCount : nat }.

(** [function safeName(name)] *)
Definition safeName (name : string) : string := Str.basename name.

(** [x || 'unnamed'] on a string: the empty string is falsy. *)
Definition or_unnamed (x : string) : string :=
  match x with
  | EmptyString => "unnamed"
  | String _ _ => x
  end.

Section Server.
Variable sha256 : list byte → list byte.
Variable chunk_size : nat.
Variable JSON_stringify : manifest → string.
Variable JSON_parse : string → option manifest.

(** [function saveManifest(filename, signature, chunkHashes)] *)
Definition saveManifest (io : oracle) (filename signature : string)
    (chunkHashes : list string) : M unit :=
  let fn := filename +:+ ".json" in
  writeManifestSync io fn
    (JSON_stringify (Manifest filename signature chunkHashes)).

(** The body of [chunks.forEach] in the upload handler; the captured
    variable [wroteSomething] is threaded through. *)
Definition write_new_chunk (io : oracle) (c : chunk) (wrote : bool) : M bool :=
  let p := hash c +:+ ".chunk" in
  present <- existsSync p ;;
  if negb present
  then writeChunkSync io p (data c) ;; ret true
  else ret wrote.

Fixpoint forEach_chunk (io : oracle) (chunks : list chunk) (wrote : bool) : M bool :=
  match chunks with
  | [] => ret wrote
  | c :: rest => w <- write_new_chunk io c wrote ;; forEach_chunk io rest w
  end.

(** The handler of [app.post('/upload', upload.single('pdfFile'), ...)] *)
Definition upload (io : oracle) (req_file : option file) : M response :=
  match req_file with
  | None => throw InvalidInput
  | Some f =>
      let buffer := buffer f in
      let originalName := safeName (or_unnamed (originalname f)) in
      match chunkAndHash sha256 chunk_size buffer with
      | None => throw Diverged
      | Some chunks =>
          let hashes := hash <$> chunks in
          let signature := Str.join "-" hashes in
          seen <- Set_has signature ;;
          wrote <- (if negb seen
                    then w <- forEach_chunk io chunks false ;;
                         Set_add signature ;;
                         ret w
                    else ret false) ;;
          Map_set originalName (Meta signature hashes) ;;
          saveManifest io originalName signature hashes ;;
          ret (Response wrote originalName (length hashes))
      end
  end.

(** The upload route on a part named [filename] with content [content]:
    multer, then the handler. *)
Definition ingest (io : oracle) (filename : string) (content : list byte) : M response :=
  upload io (multer_single filename content).

(** [meta.chunkHashes.map(h => ...)] in the download handler *)
Fixpoint read_chunks (hs : list string) : M (list (list byte)) :=
  match hs with
  | [] => ret []
  | h :: rest =>
      let p := h +:+ ".chunk" in
      present <- existsSync p ;;
      if negb present then throw (MissingChunk h)
      else b <- readFileSync p ;;
           bs <- read_chunks rest ;;
           ret (b :: bs)
  end.

(** [app.get('/download/:filename', ...)] *)
Definition download (req_params_filename : string) : M (list byte) :=
  let name := safeName req_params_filename in
  m <- Map_get name ;;
  match m with
  | None => throw NotFound
  | Some m =>
      catch (buffers <- read_chunks (chunkHashes m) ;;
             res_set "application/pdf"
               ("attachment; filename=" +:+ Str.dquote +:+ name +:+ Str.dquote) ;;
             ret (concat buffers))
            (λ _, throw CorruptStore)
  end.

(** [app.get('/list', ...)]: the keys of [fileMeta]. *)
Definition list_filenames (st : state) : gset string := dom (fileMeta st).

(** One iteration of the [forEach] of [bootstrap]: files not ending in
    [.json] are skipped, and so is one whose parse throws. *)
Definition bootstrap_file (file : string) (content : string) (st : state) : state :=
  if negb (Str.endsWith file ".json") then st
  else match JSON_parse content with
       | Some (Manifest filename signature chunkHashes) =>
           State (<[filename := Meta signature chunkHashes]> (fileMeta st))
                 ({[signature]} ∪ fileSignatures st)
                 (chunksDir st) (manifestDir st)
       | None => st
       end.

(** [function bootstrap()]; the order of [fs.readdirSync] is the one of
    [map_fold]. *)
Definition bootstrap (st : state) : state :=
  map_fold bootstrap_file st (manifestDir st).

(** A process start over the directories left by [st]: both indexes are
    created empty and [bootstrap()] runs before any request. *)
Definition restart (st : state) : state :=
  bootstrap (State ∅ ∅ (chunksDir st) (manifestDir st)).

(** The state of a server started on two empty directories. *)
Definition init : state := restart (State ∅ ∅ ∅ ∅).
End Server.

(** An environment in which no write fails. *)
Definition io_ok : oracle := Oracle (λ _ _, true) (λ _ _, None).

(** A failed write of a chunk leaves the chunk directory as it was. *)
Definition atomic (io : oracle) : Prop :=
  ∀ k, io Chunks k = false → leaves io Chunks k = None.

(** ** Invariants and reachable states *)

Section Invariants.
Variable sha256 : list byte → list byte.
Variable chunk_size : nat.
Variable JSON_stringify : manifest → string.
Variable JSON_parse : string → option manifest.

(** The chunk contents ever presented to the store; the hash is assumed
    free of collisions on them only. *)
Variable U : list byte → Prop.

Definition collision_free : Prop :=
  ∀ a b, U a → U b → digest sha256 a = digest sha256 b → a = b.

(** Every piece of [cs] is the blob stored under its own digest. *)
Definition stored (st : state) (cs : list (list byte)) : Prop :=
  Forall (λ d, chunksDir st !! (digest sha256 d +:+ ".chunk") = Some d) cs.

(** [sig], [hs] are the signature and digest list of a stored chunk
    sequence. *)
Definition describes (st : state) (sig : string) (hs : list string) : Prop :=
  ∃ cs, hs = digest sha256 <$> cs ∧ sig = Str.join "-" hs ∧ stored st cs.

Record store_inv (st : state) : Prop := StoreInv {
  blobs_ok : ∀ k d, chunksDir st !! k = Some d →
             k = digest sha256 d +:+ ".chunk" ∧ U d;
  sigs_ok : ∀ s, s ∈ fileSignatures st → ∃ hs, describes st s hs;
  metas_ok : ∀ n m, fileMeta st !! n = Some m →
             describes st (signature m) (chunkHashes m);
  manifests_ok : ∀ k t m, manifestDir st !! k = Some t →
             JSON_parse t = Some m →
             describes st (json_signature m) (json_chunkHashes m) }.

Definition no_slash (n : string) : Prop := ¬ Str.has_char Str.slash n.

Record names_inv (st : state) : Prop := NamesInv {
  keys_ok : ∀ n m, fileMeta st !! n = Some m → no_slash n;
  files_ok : ∀ k t, manifestDir st !! k = Some t →
             ∃ m, k = json_filename m +:+ ".json" ∧ t = JSON_stringify m ∧
                  no_slash (json_filename m) }.

(** The index and the manifest directory say the same. *)
Definition synced (st : state) : Prop :=
  ∀ n, manifestDir st !! (n +:+ ".json") =
       (λ m, JSON_stringify (Manifest n (signature m) (chunkHashes m)))
         <$> fileMeta st !! n.

(** A manifest directory [bootstrap] recovers from: every file is one
    written by [saveManifest], or is skipped for its name, or does not
    parse (a truncated or damaged record). *)
Definition recoverable (d : gmap string string) : Prop :=
  ∀ k t, d !! k = Some t →
    Str.endsWith k ".json" = false ∨ JSON_parse t = None ∨
    ∃ m, k = json_filename m +:+ ".json" ∧ t = JSON_stringify m.

(** The chunks of an uploaded buffer lie in [U]. *)
Definition within (req_file : option file) : Prop :=
  ∀ f cs, req_file = Some f →
    chunkAndHash sha256 chunk_size (buffer f) = Some cs →
    Forall (λ c, U (data c)) cs.

(** The write of the manifest of this upload does not fail. *)
Definition commits (io : oracle) (req_file : option file) : Prop :=
  ∀ f, req_file = Some f →
    io Manifests (safeName (or_unnamed (originalname f)) +:+ ".json") = true.

(** A failed write of the manifest of this upload leaves no file cut
    short. *)
Definition tidy (io : oracle) (req_file : option file) : Prop :=
  ∀ f, req_file = Some f →
    io Manifests (safeName (or_unnamed (originalname f)) +:+ ".json") = false →
    leaves io Manifests (safeName (or_unnamed (originalname f)) +:+ ".json") = None.

(** An upload the round trip is shown after: its chunks lie in [U] and a
    failed write of one of them leaves no file. *)
Definition orderly (io : oracle) (req_file : option file) : Prop :=
  within req_file ∧ atomic io.

(** Every key of the index and every manifest that parses has a name
    without a separator. *)
Record keys_inv (st : state) : Prop := KeysInv {
  index_keys : ∀ n m, fileMeta st !! n = Some m → no_slash n;
  parsed_keys : ∀ k t m, manifestDir st !! k = Some t →
             JSON_parse t = Some m → no_slash (json_filename m) }.

(** States the server can be in: started on empty directories, then any
    sequence of uploads (whatever their outcome) admitted by [P],
    downloads and restarts.  A crash in the middle of a request leaves
    the directories of a failed upload, so it is a failed upload followed
    by a restart. *)
Inductive reachable (P : oracle → option file → Prop) : state → Prop :=
  | reach_init : reachable P (init JSON_parse)
  | reach_upload st io req_file :
      reachable P st → P io req_file →
      reachable P (upload sha256 chunk_size JSON_stringify io req_file st).1
  | reach_download st name :
      reachable P st → reachable P (download name st).1
  | reach_restart st :
      reachable P st → reachable P (restart JSON_parse st).

(** What the download handler computes, as a function of the state. *)
Definition reconstruct (st : state) (name : string) : outcome (list byte) :=
  match fileMeta st !! safeName name with
  | None => Err NotFound
  | Some m =>
      match mapM (λ h, chunksDir st !! (h +:+ ".chunk")) (chunkHashes m) with
      | Some buffers =>
          if header_ok (safeName name) then Ok (concat buffers)
          else Err CorruptStore
      | None => Err CorruptStore
      end
  end.
End Invariants.

(** ** Effects of the handlers

    The states and outcomes a handler can end in, used to state what the
    handlers do. *)

(** The state with another chunk directory, index or manifest directory. *)
Definition with_chunk (st : state) (name : string) (d : list byte) : state :=
  State (fileMeta st) (fileSignatures st) (<[name := d]> (chunksDir st))
        (manifestDir st).

(** The index part and the manifest part of the state after the chunk
    phase of an upload. *)
Definition commit_signature (sig : string) (st : state) : state :=
  State (fileMeta st) ({[sig]} ∪ fileSignatures st) (chunksDir st)
        (manifestDir st).

Definition commit_meta (name sig : string) (hs : list string) (st : state) : state :=
  State (<[name := Meta sig hs]> (fileMeta st)) (fileSignatures st)
        (chunksDir st) (manifestDir st).

Definition commit_manifest (JSON_stringify : manifest → string)
    (name sig : string) (hs : list string) (st : state) : state :=
  State (fileMeta st) (fileSignatures st) (chunksDir st)
        (<[name +:+ ".json" := JSON_stringify (Manifest name sig hs)]>
           (manifestDir st)).

(** The state after a manifest write that threw. *)
Definition cut_manifest (JSON_stringify : manifest → string) (io : oracle)
    (name sig : string) (hs : list string) (st : state) : state :=
  match leaves io Manifests (name +:+ ".json") with
  | None => st
  | Some n =>
      State (fileMeta st) (fileSignatures st) (chunksDir st)
            (<[name +:+ ".json" :=
                 Str.truncate n (JSON_stringify (Manifest name sig hs))]>
               (manifestDir st))
  end.

(** What the loop over the chunks leaves behind. *)
Record forEach_post (io : oracle) (cs : list chunk) (w : bool)
    (st st' : state) (out : outcome bool) : Prop := ForEachPost {
  fe_meta : fileMeta st' = fileMeta st;
  fe_sigs : fileSignatures st' = fileSignatures st;
  fe_manifests : manifestDir st' = manifestDir st;
  fe_grows : chunksDir st ⊆ chunksDir st';
  fe_new : ∀ k d, chunksDir st' !! k = Some d →
           chunksDir st !! k = Some d ∨
           ∃ c, c ∈ cs ∧ k = hash c +:+ ".chunk" ∧
                (d = data c ∨
                 ∃ n, io Chunks k = false ∧ leaves io Chunks k = Some n ∧
                      d = take n (data c) ∧ out = Err (WriteFailed Chunks k));
  fe_out : match out with
           | Ok w' =>
               (∀ c, c ∈ cs → is_Some (chunksDir st' !! (hash c +:+ ".chunk"))) ∧
               (w' = false → w = false ∧ chunksDir st' = chunksDir st) ∧
               (chunksDir st' = chunksDir st → w' = w)
           | Err e => ∃ k, e = WriteFailed Chunks k ∧ io Chunks k = false
           end }.

(** The chunk phase (5a of the source) for a signature [sig] and chunks
    [cs], from [st]. *)
Inductive chunk_phase (io : oracle) (cs : list chunk) (sig : string)
    (st : state) : state → outcome bool → Prop :=
  | cp_seen :
      sig ∈ fileSignatures st → chunk_phase io cs sig st st (Ok false)
  | cp_written s w :
      sig ∉ fileSignatures st → forEach_post io cs false st s (Ok w) →
      chunk_phase io cs sig st (commit_signature sig s) (Ok w)
  | cp_failed s e :
      sig ∉ fileSignatures st → forEach_post io cs false st s (Err e) →
      chunk_phase io cs sig st s (Err e).

(** The three ways an upload of [f] ends. *)
Inductive upload_post (JSON_stringify : manifest → string) (io : oracle)
    (f : file) (cs : list chunk) (st : state) :
    state → outcome response → Prop :=
  | up_failed s e :
      chunk_phase io cs (Str.join "-" (hash <$> cs)) st s (Err e) →
      upload_post JSON_stringify io f cs st s (Err e)
  | up_unsaved s w :
      let name := safeName (or_unnamed (originalname f)) in
      let hs := hash <$> cs in
      chunk_phase io cs (Str.join "-" hs) st s (Ok w) →
      io Manifests (name +:+ ".json") = false →
      upload_post JSON_stringify io f cs st
        (cut_manifest JSON_stringify io name (Str.join "-" hs) hs
           (commit_meta name (Str.join "-" hs) hs s))
        (Err (WriteFailed Manifests (name +:+ ".json")))
  | up_saved s w :
      let name := safeName (or_unnamed (originalname f)) in
      let hs := hash <$> cs in
      chunk_phase io cs (Str.join "-" hs) st s (Ok w) →
      io Manifests (name +:+ ".json") = true →
      upload_post JSON_stringify io f cs st
        (commit_manifest JSON_stringify name (Str.join "-" hs) hs
           (commit_meta name (Str.join "-" hs) hs s))
        (Ok (Response w name (length hs))).

(** A file of the manifest directory that [bootstrap] loads as [m]. *)
Definition loads (JSON_parse : string → option manifest)
    (d : gmap string string) (m : manifest) : Prop :=
  ∃ k t, d !! k = Some t ∧ Str.endsWith k ".json" = true ∧ JSON_parse t = Some m.

(** What [bootstrap], started in [st0], has rebuilt in [r] from the manifest
    directory [d]. *)
Record bootstrap_post (JSON_stringify : manifest → string)
    (JSON_parse : string → option manifest)
    (st0 r : state) (d : gmap string string) : Prop := {
  bp_chunks : chunksDir r = chunksDir st0;
  bp_manifests : manifestDir r = manifestDir st0;
  bp_sigs : ∀ s, s ∈ fileSignatures r ↔
            s ∈ fileSignatures st0 ∨
            ∃ m, loads JSON_parse d m ∧ json_signature m = s;
  bp_from : ∀ n v, fileMeta r !! n = Some v →
            fileMeta st0 !! n = Some v ∨
            loads JSON_parse d (Manifest n (signature v) (chunkHashes v));
  bp_all : recoverable JSON_stringify JSON_parse d → ∀ n v,
            d !! (n +:+ ".json") =
              Some (JSON_stringify (Manifest n (signature v) (chunkHashes v))) →
            fileMeta r !! n = Some v }.

(** ** Requests in sequence

    The three routes and a process restart.  The handlers are synchronous,
    so the server handles one request to its end before the next. *)

Inductive request :=
  | PostUpload (io : oracle) (req_file : option file)
  | GetDownload (name : string)
  | GetList
  | Restart.

Section Requests.
Variable sha256 : list byte → list byte.
Variable chunk_size : nat.
Variable JSON_stringify : manifest → string.
Variable JSON_parse : string → option manifest.

Definition serve (r : request) (st : state) : state :=
  match r with
  | PostUpload io req_file =>
      (upload sha256 chunk_size JSON_stringify io req_file st).1
  | GetDownload name => (download name st).1
  | GetList => st
  | Restart => restart JSON_parse st
  end.

Definition run (rs : list request) (st : state) : state :=
  foldl (λ s r, serve r s) st rs.
End Requests.

(** The key an upload is filed under and the name of a chunk file. *)
Definition upload_key (f : file) : string :=
  safeName (or_unnamed (originalname f)).

Definition chunk_file (c : chunk) : string := hash c +:+ ".chunk".

(** ** A small instance: a toy digest and a toy manifest codec

    Used to run the model on concrete requests. *)

Module Toy.

(** 32 bytes: the input, zero-padded or truncated. *)
Definition sha256 (d : list byte) : list byte := take 32 (d ++ replicate 32 x00).

(** Each field is written character by character behind a ["1"] and closed
    by a ["0"]; the record is closed by a ["2"]. *)
Fixpoint enc (s : string) : string :=
  match s with
  | EmptyString => "0"
  | String c r => String "1" (String c (enc r))
  end.

Fixpoint enc_all (l : list string) : string :=
  match l with
  | [] => "2"
  | s :: r => enc s +:+ enc_all r
  end.

Fixpoint fields (cur : list ascii) (s : string) : option (list string) :=
  match s with
  | String m r =>
      if Ascii.eqb m "0" then cons (Str.of_chars (reverse cur)) <$> fields [] r
      else if Ascii.eqb m "2" then
        match r, cur with
        | EmptyString, [] => Some []
        | _, _ => None
        end
      else match r with
           | String c r' => fields (c :: cur) r'
           | EmptyString => None
           end
  | EmptyString => None
  end.

Definition stringify (m : manifest) : string :=
  enc_all (json_filename m :: json_signature m :: json_chunkHashes m).

Definition parse (t : string) : option manifest :=
  match fields [] t with
  | Some (f :: s :: hs) => Some (Manifest f s hs)
  | _ => None
  end.

Definition upload := upload sha256 CHUNK_SIZE stringify.
Definition ingest := ingest sha256 CHUNK_SIZE stringify.
Definition restart := restart parse.
Definition init := init parse.

End Toy.

(** ** Concrete runs *)

Module Run.

Definition B1 : list byte := [x01; x02; x03].
Definition B2 : list byte := [x04].

(** The chunks the runs below present to the store. *)
Definition U (d : list byte) : Prop := d = B1 ∨ d = B2 ∨ d = [].

(** 25 bytes, for the scenario with chunks of 10 bytes. *)
Definition B25 : list byte := replicate 10 x0a ++ replicate 10 x0b ++ replicate 5 x0c.

(** Every write to [chunks/] fails at the open. *)
Definition io_no_chunks : oracle :=
  Oracle (λ d _, match d with Chunks => false | Manifests => true end)
         (λ _ _, None).

Definition st1 : state := (Toy.upload io_ok (Some (File B1 "a.pdf")) Toy.init).1.
Definition st2 : state := (Toy.upload io_ok (Some (File B2 "a.pdf")) st1).1.

End Run.

(** ** More concrete runs *)

Module Cases.


(** Every write to [chunks/] fails after the file was created, with none
    of the bytes written. *)
Definition io_cut_chunks : oracle :=
  Oracle (λ d _, match d with Chunks => false | Manifests => true end)
         (λ d _, match d with Chunks => Some 0 | Manifests => None end).

(** Every write to [manifests/] fails after the file was created or
    emptied, with the first five characters written. *)
Definition io_cut_manifests : oracle :=
  Oracle (λ d _, match d with Chunks => true | Manifests => false end)
         (λ d _, match d with Chunks => None | Manifests => Some 5 end).

(** A file name with the control character of code 1. *)
Definition ctl_name : string := String "001"%char "a.pdf".

(** The toy digest of [Run.B1], which is its only chunk: its signature. *)
Definition sig1 : string :=
  "0102030000000000000000000000000000000000000000000000000000000000".

(** The toy signature of [Run.B2]. *)
Definition sig2 : string :=
  "0400000000000000000000000000000000000000000000000000000000000000".

(** A state whose signature index knows [sig1] while the chunk directory
    is empty, as after the loss of the blob. *)
Definition st_lost : state := State ∅ {[sig1]} ∅ ∅.

(** [Run.B1] under a second name. *)
Definition st_ab : state :=
  (Toy.upload io_ok (Some (File Run.B1 "b.pdf")) Run.st1).1.

(** The state after an upload of [Run.B1] whose chunk write fails with the
    file created and nothing written. *)
Definition st_cut : state :=
  (Toy.ingest io_cut_chunks "a.pdf" Run.B1 Toy.init).1.

(** [Run.st1] after an upload of [Run.B2] whose manifest write fails with
    the file cut short, then a restart. *)
Definition st_cut_manifest : state :=
  Toy.restart (Toy.upload io_cut_manifests (Some (File Run.B2 "a.pdf")) Run.st1).1.


Definition requests : list request :=
  [PostUpload io_ok (Some (File Run.B2 "a.pdf")); Restart;
   GetDownload "a.pdf"; GetList].

Definition run := run Toy.sha256 CHUNK_SIZE Toy.stringify Toy.parse.

(** Two buffers that agree on their first four bytes. *)
Definition P1 : list byte := [x01; x02; x03; x04; x05].
Definition P2 : list byte := [x01; x02; x03; x04; x09; x09].

Definition chunks2 (buf : list byte) : list chunk :=
  default [] (chunkAndHash Toy.sha256 2 buf).

End Cases.

(** * Proofs *)

(** ** Strings, paths and digests *)

Module StrFacts.
Import Str.

Example basename_nested : basename "/srv/in//report.pdf///" = "report.pdf".
Proof. reflexivity. Qed.

Example basename_root : basename "/" = "".
Proof. reflexivity. Qed.

Example basename_dotdot : basename "a/.." = "..".
Proof. reflexivity. Qed.

Example endsWith_json : endsWith "a.pdf.json" ".json" = true.
Proof. reflexivity. Qed.

Example endsWith_short : endsWith "json" ".json" = false.
Proof. reflexivity. Qed.

Example join_three : join "-" ["ab"; "cd"; "ef"] = "ab-cd-ef".
Proof. reflexivity. Qed.

Example join_none : join "-" [] = "".
Proof. reflexivity. Qed.

Example hex_bytes : hex [x00; x0f; xa5; xff] = "000fa5ff".
Proof. reflexivity. Qed.

Lemma chars_append (a b : string) : chars (a +:+ b) = chars a ++ chars b.
Proof. induction a as [|c a IH]; simpl; [done | by rewrite IH]. Qed.

Lemma chars_inj (a b : string) : chars a = chars b → a = b.
Proof.
  intros E. rewrite <- (string_of_list_ascii_of_string a).
  rewrite <- (string_of_list_ascii_of_string b). unfold chars in E. by rewrite E.
Qed.

Lemma chars_of_chars (l : list ascii) : chars (of_chars l) = l.
Proof. apply list_ascii_of_string_of_list_ascii. Qed.

Lemma append_inj_r (a b t : string) : a +:+ t = b +:+ t → a = b.
Proof.
  intros E. apply chars_inj. apply (f_equal chars) in E.
  rewrite !chars_append in E. by apply app_inv_tail in E.
Qed.

Lemma starts_with_app (p l : list ascii) : starts_with p (p ++ l) = true.
Proof.
  induction p as [|a p IH]; simpl; [done |].
  by rewrite Ascii.eqb_refl, IH.
Qed.

Lemma endsWith_append (n suffix : string) : endsWith (n +:+ suffix) suffix = true.
Proof.
  unfold endsWith. rewrite chars_append, reverse_app. apply starts_with_app.
Qed.

Lemma upto_slash_no_slash (r : list ascii) : slash ∉ upto_slash r.
Proof.
  induction r as [|c r IH]; simpl; [apply not_elem_of_nil |].
  destruct (Ascii.eqb_spec c slash) as [->|Hne]; [apply not_elem_of_nil |].
  rewrite elem_of_cons. intros [E|E]; [by apply Hne | by apply IH].
Qed.

Lemma upto_slash_id (r : list ascii) : slash ∉ r → upto_slash r = r.
Proof.
  induction r as [|c r IH]; simpl; [done |].
  rewrite not_elem_of_cons. intros [Hc Hr].
  destruct (Ascii.eqb_spec c slash) as [->|_]; [done | by rewrite IH].
Qed.

Lemma skip_slashes_id (r : list ascii) : slash ∉ r → skip_slashes r = r.
Proof.
  destruct r as [|c r]; simpl; [done |].
  rewrite not_elem_of_cons. intros [Hc _].
  by destruct (Ascii.eqb_spec c slash) as [->|_].
Qed.

Lemma basename_no_slash (p : string) : ¬ has_char slash (basename p).
Proof.
  unfold has_char, basename. rewrite chars_of_chars, elem_of_reverse.
  apply upto_slash_no_slash.
Qed.

Lemma basename_id (s : string) : ¬ has_char slash s → basename s = s.
Proof.
  unfold has_char, basename. intros H.
  assert (slash ∉ reverse (chars s)) as H' by by rewrite elem_of_reverse.
  rewrite (skip_slashes_id _ H'), (upto_slash_id _ H'), reverse_involutive.
  apply string_of_list_ascii_of_string.
Qed.

Lemma basename_idemp (p : string) : basename (basename p) = basename p.
Proof. apply basename_id, basename_no_slash. Qed.

Lemma chars_hex (l : list byte) : chars (hex l) = concat (map hex_byte l).
Proof. apply chars_of_chars. Qed.

Lemma hex_digit_not_dash (n : N) : hex_digit n ≠ dash.
Proof.
  unfold hex_digit.
  repeat (match goal with |- context [match ?x with _ => _ end] => destruct x end;
          try discriminate).
Qed.

Lemma hex_no_dash (l : list byte) : ¬ has_char dash (hex l).
Proof.
  unfold has_char. rewrite chars_hex.
  induction l as [|b l IH]; simpl; [apply not_elem_of_nil |].
  rewrite !not_elem_of_cons. split; [|split; [|done]];
    intros E; symmetry in E; by apply hex_digit_not_dash in E.
Qed.

Lemma hex_nonempty (l : list byte) : l ≠ [] → hex l ≠ "".
Proof.
  destruct l as [|b l]; [done |]. intros _ E.
  apply (f_equal chars) in E. rewrite chars_hex in E. discriminate.
Qed.

Lemma word_split (a b x y : list ascii) :
  dash ∉ a → dash ∉ b →
  (x = [] ∨ ∃ x', x = dash :: x') → (y = [] ∨ ∃ y', y = dash :: y') →
  a ++ x = b ++ y → a = b ∧ x = y.
Proof.
  revert b. induction a as [|c a IH]; intros [|d b] Ha Hb Hx Hy E; simpl in E.
  - done.
  - destruct Hx as [->|[x' ->]]; [done |]. injection E as <- _.
    exfalso. apply Hb. apply elem_of_cons; by left.
  - destruct Hy as [->|[y' ->]]; [done |]. injection E as -> _.
    exfalso. apply Ha. apply elem_of_cons; by left.
  - injection E as -> E. rewrite not_elem_of_cons in Ha, Hb.
    destruct Ha as [_ Ha], Hb as [_ Hb].
    by destruct (IH b Ha Hb Hx Hy E) as [-> ->].
Qed.

Lemma join_cons (x : string) (r : list string) :
  chars (join "-" (x :: r)) =
  chars x ++ match r with [] => [] | _ :: _ => dash :: chars (join "-" r) end.
Proof.
  destruct r as [|y r]; simpl join.
  - by rewrite app_nil_r.
  - by rewrite !chars_append.
Qed.

Lemma join_inj (l1 l2 : list string) :
  Forall word l1 → Forall word l2 → join "-" l1 = join "-" l2 → l1 = l2.
Proof.
  intros H1. revert l2. induction H1 as [|x r [Hx Hxd] Hr IH]; intros l2 H2 E.
  - destruct H2 as [|y r2 [Hy _] _]; [done |].
    apply (f_equal chars) in E. rewrite join_cons in E.
    destruct y; [done | discriminate].
  - destruct H2 as [|y r2 [Hy Hyd] Hr2].
    { apply (f_equal chars) in E. rewrite join_cons in E.
      destruct x; [done | discriminate]. }
    apply (f_equal chars) in E. rewrite !join_cons in E.
    apply word_split in E as [Exy E]; [| done | done | |].
    + apply chars_inj in Exy as ->. f_equal.
      destruct r as [|a r], r2 as [|b r2]; try done.
      apply IH; [done |]. injection E as E. by apply chars_inj.
    + destruct r; [by left | right; eauto].
    + destruct r2; [by left | right; eauto].
Qed.

End StrFacts.

(** ** The chunker *)

Section ChunkerFacts.
Variable sha256 : list byte → list byte.
Variable chunk_size : nat.
Hypothesis chunk_size_pos : 0 < chunk_size.

Local Abbreviation chunk_loop' := (chunk_loop sha256 chunk_size).
Local Abbreviation chunkAndHash' := (chunkAndHash sha256 chunk_size).
Local Abbreviation digest' := (digest sha256).
Local Abbreviation piece' := (piece chunk_size).
Local Abbreviation chunk_count' := (chunk_count chunk_size).

Lemma before_end (k len : nat) : k * chunk_size < len ↔ k < chunk_count' len.
Proof.
  unfold chunk_count. split; intros H.
  - unfold lt. apply Nat.div_le_lower_bound; lia.
  - pose proof (Nat.Div0.mul_div_le (len + chunk_size - 1) chunk_size) as Hd.
    assert (chunk_size * S k ≤ chunk_size * ((len + chunk_size - 1) / chunk_size))
      by (apply Nat.mul_le_mono_l; lia).
    lia.
Qed.

Lemma chunk_loop_pieces (buf : list byte) (fuel k : nat) :
  length buf ≤ k * chunk_size + fuel →
  chunk_loop' fuel (k * chunk_size) buf =
    Some ((λ i, Chunk (digest' (piece' buf i)) (piece' buf i))
            <$> seq k (chunk_count' (length buf) - k)).
Proof.
  revert k. induction fuel as [|fuel IH]; intros k Hf; simpl;
    destruct (Nat.ltb_spec (k * chunk_size) (length buf)) as [Hlt|Hge].
  - lia.
  - assert (¬ k < chunk_count' (length buf)) as Hk by (rewrite <- before_end; lia).
    by replace (chunk_count' (length buf) - k) with 0 by lia.
  - apply before_end in Hlt as Hk.
    replace (k * chunk_size + chunk_size) with (S k * chunk_size) by lia.
    rewrite IH by lia.
    replace (chunk_count' (length buf) - k)
      with (S (chunk_count' (length buf) - S k)) by lia.
    simpl. do 4 f_equal; unfold piece; f_equal; lia.
  - assert (¬ k < chunk_count' (length buf)) as Hk by (rewrite <- before_end; lia).
    by replace (chunk_count' (length buf) - k) with 0 by lia.
Qed.

Lemma chunkAndHash_pieces (buf : list byte) :
  chunkAndHash' buf =
    Some ((λ i, Chunk (digest' (piece' buf i)) (piece' buf i))
            <$> seq 0 (chunk_count' (length buf))).
Proof.
  unfold chunkAndHash.
  pose proof (chunk_loop_pieces buf (length buf) 0) as H.
  simpl in H. rewrite Nat.sub_0_r in H. apply H. lia.
Qed.

Lemma length_piece (buf : list byte) (i : nat) :
  length (piece' buf i) = chunk_size `min` (length buf - i * chunk_size).
Proof.
  unfold piece, slice. rewrite length_take, length_drop.
  f_equal. lia.
Qed.

Lemma concat_pieces (buf : list byte) (k n : nat) :
  length buf ≤ (k + n) * chunk_size →
  concat (piece' buf <$> seq k n) = drop (k * chunk_size) buf.
Proof.
  revert k. induction n as [|n IH]; intros k Hn; simpl.
  - rewrite drop_ge; [done | lia].
  - rewrite IH by lia. unfold piece, slice.
    replace (k * chunk_size + chunk_size - k * chunk_size) with chunk_size by lia.
    replace (S k * chunk_size) with (k * chunk_size + chunk_size) by lia.
    rewrite <- drop_drop. apply take_drop.
Qed.

Lemma chunk_count_covers (len : nat) : len ≤ chunk_count' len * chunk_size.
Proof.
  destruct (Nat.le_gt_cases len (chunk_count' len * chunk_size)) as [|H]; [done |].
  apply before_end in H. lia.
Qed.

(** The chunker terminates, and its result is the list of pieces. *)
Lemma chunkAndHash_spec (buf : list byte) :
  ∃ cs, chunkAndHash' buf = Some cs ∧
        data <$> cs = piece' buf <$> seq 0 (chunk_count' (length buf)) ∧
        hash <$> cs = digest' <$> (data <$> cs) ∧
        concat (data <$> cs) = buf.
Proof.
  eexists. split; [apply chunkAndHash_pieces |].
  rewrite <- !list_fmap_compose. split; [done |]. split; [done |].
  change (data ∘ _) with (piece' buf).
  rewrite concat_pieces; [done |]. apply chunk_count_covers.
Qed.
End ChunkerFacts.

(** ** The request handlers, step by step *)

Lemma write_new_chunk_eq (io : oracle) (c : chunk) (w : bool) (st : state) :
  write_new_chunk io c w st =
    match chunksDir st !! (hash c +:+ ".chunk") with
    | Some _ => (st, Ok w)
    | None =>
        if io Chunks (hash c +:+ ".chunk")
        then (with_chunk st (hash c +:+ ".chunk") (data c), Ok true)
        else match leaves io Chunks (hash c +:+ ".chunk") with
             | None => (st, Err (WriteFailed Chunks (hash c +:+ ".chunk")))
             | Some n =>
                 (with_chunk st (hash c +:+ ".chunk") (take n (data c)),
                  Err (WriteFailed Chunks (hash c +:+ ".chunk")))
             end
    end.
Proof.
  unfold write_new_chunk, bind, existsSync, writeChunkSync, ret.
  destruct (chunksDir st !! (hash c +:+ ".chunk")) as [d|] eqn:E.
  - rewrite bool_decide_eq_true_2; [done | by eexists].
  - rewrite bool_decide_eq_false_2; [simpl | by intros [? ?]].
    destruct (io Chunks _); [done |]. by destruct (leaves io Chunks _).
Qed.

Lemma forEach_chunk_post (io : oracle) (cs : list chunk) (w : bool)
    (st st' : state) (out : outcome bool) :
  forEach_chunk io cs w st = (st', out) → forEach_post io cs w st st' out.
Proof.
  revert w st. induction cs as [|c cs IH]; intros w st E; simpl in E.
  - injection E as <- <-. split; try done; [by left |].
    split; [|done]. intros c Hc. by apply elem_of_nil in Hc.
  - unfold bind in E. rewrite write_new_chunk_eq in E.
    destruct (chunksDir st !! (hash c +:+ ".chunk")) as [d0|] eqn:E0.
    + apply IH in E as [H1 H2 H3 H4 H5 H6]. split; try done.
      * intros k d Hk. destruct (H5 k d Hk) as [?|(c' & ? & ? & ?)]; [by left |].
        right. exists c'. rewrite elem_of_cons. eauto.
      * destruct out as [w'|e]; [|done].
        destruct H6 as (Ha & Hb & Hc). split; [|done].
        intros c' [->|Hc']%elem_of_cons; [|by apply Ha].
        eapply lookup_weaken_is_Some; [by eexists | done].
    + destruct (io Chunks (hash c +:+ ".chunk")) eqn:Eio.
      * set (st1 := with_chunk st (hash c +:+ ".chunk") (data c)) in *.
        apply IH in E as [H1 H2 H3 H4 H5 H6].
        assert (chunksDir st ⊆ chunksDir st1) as Hsub
          by (by apply insert_subseteq).
        assert (chunksDir st1 !! (hash c +:+ ".chunk") = Some (data c)) as Hin
          by apply lookup_insert_eq.
        split; try done.
        -- by etrans.
        -- intros k d Hk. destruct (H5 k d Hk) as [Hk'|(c' & ? & ? & ?)].
           ++ simpl in Hk'. rewrite lookup_insert in Hk'.
              case_decide as Ek; [|by left]. injection Hk' as <-. subst k.
              right. exists c. rewrite elem_of_cons. eauto.
           ++ right. exists c'. rewrite elem_of_cons. eauto.
        -- destruct out as [w'|e]; [|done].
           destruct H6 as (Ha & Hb & Hc). split; [|split].
           ++ intros c' [->|Hc']%elem_of_cons; [|by apply Ha].
              eapply lookup_weaken_is_Some; [by eexists | done].
           ++ intros Hw. by destruct (Hb Hw).
           ++ intros Heq. exfalso.
              eapply lookup_weaken in Hin; [|exact H4].
              rewrite Heq in Hin. congruence.
      * destruct (leaves io Chunks (hash c +:+ ".chunk")) as [n|] eqn:El.
        -- injection E as <- <-. split; try done.
           ++ by apply insert_subseteq.
           ++ intros k d Hk. simpl in Hk. rewrite lookup_insert in Hk.
              case_decide as Ek; [|by left]. injection Hk as <-. subst k.
              right. exists c. rewrite elem_of_cons.
              split; [by left |]. split; [done |]. right. by exists n.
           ++ eauto.
        -- injection E as <- <-. split; try done; [by left | eauto].
Qed.

Section HandlerFacts.
Variable sha256 : list byte → list byte.
Variable chunk_size : nat.
Variable JSON_stringify : manifest → string.

Local Abbreviation upload' := (upload sha256 chunk_size JSON_stringify).
Local Abbreviation chunkAndHash' := (chunkAndHash sha256 chunk_size).

(** The upload handler as one case analysis. *)
Lemma upload_eq (io : oracle) (f : file) (cs : list chunk) (st : state) :
  chunkAndHash' (buffer f) = Some cs →
  let name := safeName (or_unnamed (originalname f)) in
  let hs := hash <$> cs in
  let sig := Str.join "-" hs in
  upload' io (Some f) st =
    let phase1 :=
      if bool_decide (sig ∈ fileSignatures st) then (st, Ok false)
      else match forEach_chunk io cs false st with
           | (s, Ok w) => (commit_signature sig s, Ok w)
           | (s, Err e) => (s, Err e)
           end in
    match phase1 with
    | (s, Err e) => (s, Err e)
    | (s, Ok w) =>
        if io Manifests (name +:+ ".json")
        then (commit_manifest JSON_stringify name sig hs (commit_meta name sig hs s),
              Ok (Response w name (length hs)))
        else (cut_manifest JSON_stringify io name sig hs (commit_meta name sig hs s),
              Err (WriteFailed Manifests (name +:+ ".json")))
    end.
Proof.
  intros Hcs name hs sig. unfold upload. rewrite Hcs.
  fold name hs sig. unfold bind at 1. unfold Set_has at 1.
  destruct (bool_decide (sig ∈ fileSignatures st)); simpl.
  - unfold bind, ret, Map_set, saveManifest, writeManifestSync, cut_manifest.
    simpl. destruct (io Manifests _); [done |].
    by destruct (leaves io Manifests _).
  - unfold bind at 1. unfold bind at 1.
    destruct (forEach_chunk io cs false st) as [s [w|e]]; [|done].
    unfold bind, ret, Set_add, Map_set, saveManifest, writeManifestSync,
      cut_manifest. simpl. destruct (io Manifests _); [done |].
    by destruct (leaves io Manifests _).
Qed.

(** The parts of the state a manifest write that threw leaves alone. *)
Lemma cut_manifest_frame (io : oracle) (name sig : string) (hs : list string)
    (st : state) :
  let st' := cut_manifest JSON_stringify io name sig hs st in
  fileMeta st' = fileMeta st ∧ fileSignatures st' = fileSignatures st ∧
  chunksDir st' = chunksDir st ∧
  (∀ k, k ≠ name +:+ ".json" → manifestDir st' !! k = manifestDir st !! k).
Proof.
  unfold cut_manifest. destruct (leaves io Manifests _) as [n|]; simpl; [|done].
  repeat split. intros k Hk. by rewrite lookup_insert_ne.
Qed.

Lemma cut_manifest_meta (io : oracle) (name sig : string) (hs : list string)
    (st : state) :
  fileMeta (cut_manifest JSON_stringify io name sig hs st) = fileMeta st.
Proof. apply cut_manifest_frame. Qed.

Lemma cut_manifest_sigs (io : oracle) (name sig : string) (hs : list string)
    (st : state) :
  fileSignatures (cut_manifest JSON_stringify io name sig hs st)
  = fileSignatures st.
Proof. apply cut_manifest_frame. Qed.

Lemma cut_manifest_chunks (io : oracle) (name sig : string) (hs : list string)
    (st : state) :
  chunksDir (cut_manifest JSON_stringify io name sig hs st) = chunksDir st.
Proof. apply cut_manifest_frame. Qed.

Lemma cut_manifest_atomic (io : oracle) (name sig : string) (hs : list string)
    (st : state) :
  io Manifests (name +:+ ".json") = false →
  leaves io Manifests (name +:+ ".json") = None →
  cut_manifest JSON_stringify io name sig hs st = st.
Proof. intros _ E. unfold cut_manifest. by rewrite E. Qed.

Lemma upload_none (io : oracle) (st : state) :
  upload' io None st = (st, Err InvalidInput).
Proof. done. Qed.
End HandlerFacts.

Lemma read_chunks_cons (h : string) (hs : list string) (st : state) :
  read_chunks (h :: hs) st =
    match chunksDir st !! (h +:+ ".chunk") with
    | None => (st, Err (MissingChunk h))
    | Some b =>
        match read_chunks hs st with
        | (s, Ok bs) => (s, Ok (b :: bs))
        | (s, Err e) => (s, Err e)
        end
    end.
Proof.
  simpl. unfold bind, existsSync, readFileSync, ret, throw.
  destruct (chunksDir st !! (h +:+ ".chunk")) as [b|] eqn:E.
  - rewrite bool_decide_eq_true_2 by by eexists. simpl. rewrite E.
    by destruct (read_chunks hs st) as [s [bs|e]].
  - by rewrite bool_decide_eq_false_2 by by intros [? ?].
Qed.

Lemma read_chunks_spec (hs : list string) (st : state) :
  match mapM (λ h, chunksDir st !! (h +:+ ".chunk")) hs with
  | Some bs => read_chunks hs st = (st, Ok bs)
  | None => ∃ h, read_chunks hs st = (st, Err (MissingChunk h))
  end.
Proof.
  induction hs as [|h hs IH]; [done |].
  rewrite read_chunks_cons. simpl mapM.
  destruct (chunksDir st !! (h +:+ ".chunk")) as [b|] eqn:E; simpl; [|by exists h].
  destruct (mapM _ hs) as [bs|]; simpl.
  - by rewrite IH.
  - destruct IH as [h' ->]. by exists h'.
Qed.

(** The download handler computes [reconstruct] and leaves the state as it
    was. *)
Lemma header_ok_disposition (name : string) :
  header_ok ("attachment; filename=" +:+ Str.dquote +:+ name +:+ Str.dquote)
  = header_ok name.
Proof.
  unfold header_ok. rewrite !StrFacts.chars_append, !forallb_app.
  simpl. by rewrite andb_true_r.
Qed.

Lemma download_eq (name : string) (st : state) :
  download name st = (st, reconstruct st name).
Proof.
  unfold download, reconstruct, bind at 1, Map_get.
  destruct (fileMeta st !! safeName name) as [m|]; [|done].
  unfold catch, bind, ret, throw, res_set.
  rewrite header_ok_disposition.
  pose proof (read_chunks_spec (chunkHashes m) st) as H.
  destruct (mapM _ (chunkHashes m)) as [bs|].
  - rewrite H. simpl. by destruct (header_ok (safeName name)).
  - destruct H as [h ->]. done.
Qed.

(** ** Bootstrap *)

Section BootstrapFacts.
Variable JSON_stringify : manifest → string.
Variable JSON_parse : string → option manifest.
Hypothesis JSON_roundtrip : ∀ m, JSON_parse (JSON_stringify m) = Some m.

Local Abbreviation bootstrap_file' := (bootstrap_file JSON_parse).
Local Abbreviation restart' := (restart JSON_parse).
Local Abbreviation recoverable' := (recoverable JSON_stringify JSON_parse).
Local Abbreviation loads' := (loads JSON_parse).
Local Abbreviation bootstrap_post' := (bootstrap_post JSON_stringify JSON_parse).

Lemma JSON_stringify_inj (m1 m2 : manifest) :
  JSON_stringify m1 = JSON_stringify m2 → m1 = m2.
Proof.
  intros E. apply (f_equal JSON_parse) in E.
  rewrite !JSON_roundtrip in E. by injection E.
Qed.

Lemma bootstrap_file_cases (k t : string) (st : state) :
  (bootstrap_file' k t st = st ∧
     (Str.endsWith k ".json" = false ∨ JSON_parse t = None)) ∨
  (∃ m, Str.endsWith k ".json" = true ∧ JSON_parse t = Some m ∧
        bootstrap_file' k t st =
          State (<[json_filename m := Meta (json_signature m) (json_chunkHashes m)]>
                   (fileMeta st))
                ({[json_signature m]} ∪ fileSignatures st)
                (chunksDir st) (manifestDir st)).
Proof.
  unfold bootstrap_file.
  destruct (Str.endsWith k ".json"); simpl; [|left; eauto].
  destruct (JSON_parse t) as [[n s hs]|]; [|left; eauto].
  right. by exists (Manifest n s hs).
Qed.

Lemma loads_insert (d : gmap string string) (i x : string) (m : manifest) :
  d !! i = None → loads' d m → loads' (<[i := x]> d) m.
Proof.
  intros Hi (k & t & Hk & ? & ?). exists k, t. split; [|done].
  rewrite lookup_insert_ne; [done | congruence].
Qed.

Lemma recoverable_insert (d : gmap string string) (i x : string) :
  d !! i = None → recoverable' (<[i := x]> d) → recoverable' d.
Proof.
  intros Hi H k t Hk. apply H. rewrite lookup_insert_ne; [done | congruence].
Qed.

Lemma bootstrap_fold (st0 : state) (d : gmap string string) :
  bootstrap_post' st0 (map_fold bootstrap_file' st0 d) d.
Proof.
  apply (map_fold_weak_ind (bootstrap_post' st0)); clear d.
  - split; try done.
    + intros s. split; [by left |]. intros [?|(m & (k & t & Hk & _) & _)]; [done |].
      by rewrite lookup_empty in Hk.
    + intros n v ?. by left.
  - intros i x d r Hi [H1 H2 H3 H4 H5].
    destruct (bootstrap_file_cases i x r) as [[-> Hskip]|(m & Hend & Hp & ->)].
    + split; try done.
      * intros s. rewrite H3. split; intros [?|(m & Hm & ?)]; try by left.
        -- right. exists m. split; [by apply loads_insert | done].
        -- right. exists m. split; [|done].
           destruct Hm as (k & t & Hk & He & Hpt). exists k, t.
           rewrite lookup_insert in Hk. case_decide as Eik; [|done].
           injection Hk as <-. subst k. destruct Hskip; congruence.
      * intros n v Hn. destruct (H4 n v Hn); [by left |].
        right. by apply loads_insert.
      * intros Hrec n v Hn. apply H5; [by eapply recoverable_insert |].
        rewrite lookup_insert in Hn. case_decide as Eik; [|done].
        injection Hn as ->. rewrite JSON_roundtrip in Hskip.
        subst i. rewrite StrFacts.endsWith_append in Hskip.
        destruct Hskip; discriminate.
    + assert (loads' (<[i := x]> d) m) as Hload.
      { exists i, x. by rewrite lookup_insert_eq. }
      split; simpl; try done.
      * intros s. rewrite elem_of_union, elem_of_singleton, H3.
        split.
        -- intros [->|[?|(m' & Hm' & ?)]]; [right; eauto | by left |].
           right. exists m'. split; [by apply loads_insert | done].
        -- intros [?|(m' & Hm' & Hs)]; [by right; left |].
           destruct Hm' as (k & t & Hk & He & Hpt).
           rewrite lookup_insert in Hk. case_decide as Eik.
           ++ injection Hk as <-. left. congruence.
           ++ right. right. exists m'. split; [|done]. by exists k, t.
      * intros n v. rewrite lookup_insert. case_decide as En.
        -- intros [= <-]. right. subst n. by destruct m.
        -- intros Hn. destruct (H4 n v Hn); [by left |].
           right. by apply loads_insert.
      * intros Hrec n v Hn. rewrite lookup_insert in Hn.
        case_decide as Eik.
        -- injection Hn as ->. rewrite JSON_roundtrip in Hp.
           injection Hp as <-. simpl. rewrite lookup_insert_eq. by destruct v.
        -- assert (json_filename m ≠ n) as Hne.
           { intros <-. destruct (Hrec i x) as [He|[Hn'|(m' & -> & ->)]].
             - apply lookup_insert_eq.
             - congruence.
             - congruence.
             - rewrite JSON_roundtrip in Hp. injection Hp as ->. done. }
           rewrite lookup_insert_ne by done.
           apply H5; [by eapply recoverable_insert | done].
Qed.

Lemma restart_post (st : state) :
  bootstrap_post' (State ∅ ∅ (chunksDir st) (manifestDir st)) (restart' st)
    (manifestDir st).
Proof. apply bootstrap_fold. Qed.

Lemma init_eq : init JSON_parse = State ∅ ∅ ∅ ∅.
Proof. unfold init, restart, bootstrap. simpl. apply map_fold_empty. Qed.
End BootstrapFacts.

(** ** The upload handler, by cases *)

Section UploadCases.
Variable sha256 : list byte → list byte.
Variable chunk_size : nat.
Variable JSON_stringify : manifest → string.
Hypothesis chunk_size_pos : 0 < chunk_size.

Local Abbreviation upload' := (upload sha256 chunk_size JSON_stringify).

Lemma upload_cases (io : oracle) (f : file) (st : state) :
  ∃ cs, chunkAndHash sha256 chunk_size (buffer f) = Some cs ∧
        data <$> cs = piece chunk_size (buffer f)
                        <$> seq 0 (chunk_count chunk_size (length (buffer f))) ∧
        hash <$> cs = digest sha256 <$> (data <$> cs) ∧
        concat (data <$> cs) = buffer f ∧
        upload_post JSON_stringify io f cs st (upload' io (Some f) st).1 (upload' io (Some f) st).2.
Proof.
  destruct (chunkAndHash_spec sha256 chunk_size chunk_size_pos (buffer f))
    as (cs & Hcs & Hp & Hh & Hc).
  exists cs. do 4 (split; [done |]).
  rewrite (upload_eq _ _ _ io f cs st Hcs). simpl.
  destruct (decide (Str.join "-" (hash <$> cs) ∈ fileSignatures st)) as [Hin|Hout].
  - rewrite bool_decide_eq_true_2 by done.
    destruct (io Manifests _) eqn:Eio; simpl.
    + apply (up_saved JSON_stringify io f cs st st false); [by apply cp_seen | done].
    + apply (up_unsaved JSON_stringify io f cs st st false); [by apply cp_seen | done].
  - rewrite bool_decide_eq_false_2 by done.
    destruct (forEach_chunk io cs false st) as [s [w|e]] eqn:E;
      apply forEach_chunk_post in E.
    + destruct (io Manifests _) eqn:Eio; simpl.
      * apply (up_saved JSON_stringify io f cs st _ w); [by apply cp_written | done].
      * apply (up_unsaved JSON_stringify io f cs st _ w); [by apply cp_written | done].
    + simpl. by apply up_failed, cp_failed.
Qed.
End UploadCases.

Lemma chunk_phase_frame (io : oracle) (cs : list chunk) (sig : string)
    (st s : state) (out : outcome bool) :
  chunk_phase io cs sig st s out →
  fileMeta s = fileMeta st ∧ manifestDir s = manifestDir st ∧
  chunksDir st ⊆ chunksDir s ∧
  (fileSignatures s = fileSignatures st ∨
   (fileSignatures s = {[sig]} ∪ fileSignatures st ∧ ∃ w, out = Ok w)).
Proof.
  intros [Hin|s' w Hout [H1 H2 H3 H4 _ _]|s' e Hout [H1 H2 H3 H4 _ _]]; simpl.
  - split; [done |]. split; [done |]. split; [done |]. by left.
  - split; [done |]. split; [done |]. split; [done |]. right.
    split; [by rewrite H2 | by exists w].
  - split; [done |]. split; [done |]. split; [done |]. by left.
Qed.

(** ** File names and the manifest directory *)

Section NamesFacts.
Variable sha256 : list byte → list byte.
Variable chunk_size : nat.
Variable JSON_stringify : manifest → string.
Variable JSON_parse : string → option manifest.
Hypothesis chunk_size_pos : 0 < chunk_size.
Hypothesis JSON_roundtrip : ∀ m, JSON_parse (JSON_stringify m) = Some m.

Local Abbreviation upload' := (upload sha256 chunk_size JSON_stringify).
Local Abbreviation restart' := (restart JSON_parse).
Local Abbreviation names_inv' := (names_inv JSON_stringify).
Local Abbreviation synced' := (synced JSON_stringify).

Lemma files_recoverable (st : state) :
  names_inv' st → recoverable JSON_stringify JSON_parse (manifestDir st).
Proof.
  intros [_ H] k t Hk. destruct (H k t Hk) as (m & ? & ? & _). eauto.
Qed.

(** After a restart the index holds exactly the manifests on disk. *)
Lemma restart_index (st : state) (n : string) (v : meta) :
  recoverable JSON_stringify JSON_parse (manifestDir st) →
  fileMeta (restart' st) !! n = Some v ↔
  manifestDir st !! (n +:+ ".json") =
    Some (JSON_stringify (Manifest n (signature v) (chunkHashes v))).
Proof.
  intros Hrec. destruct (restart_post JSON_stringify JSON_parse JSON_roundtrip st)
    as [_ _ _ Hfrom Hall]. simpl in *. split.
  - intros Hv. destruct (Hfrom n v Hv) as [Hv'|(k & t & Hk & He & Hp)].
    { by rewrite lookup_empty in Hv'. }
    destruct (Hrec k t Hk) as [He'|[Hp'|(m & -> & ->)]]; [congruence.. |].
    rewrite JSON_roundtrip in Hp. by injection Hp as ->.
  - by apply Hall.
Qed.

Lemma names_init : names_inv' (init JSON_parse).
Proof.
  rewrite init_eq. split; simpl; intros ? ? H; by rewrite lookup_empty in H.
Qed.

Lemma names_restart (st : state) : names_inv' st → names_inv' (restart' st).
Proof.
  intros Hn. pose proof (restart_post JSON_stringify JSON_parse JSON_roundtrip st)
    as [_ Hm _ _ _]. simpl in Hm. split.
  - intros n v Hv. apply restart_index in Hv; [|by apply files_recoverable].
    destruct (files_ok _ _ Hn _ _ Hv) as (m & Hk & Ht & Hs).
    apply StrFacts.append_inj_r in Hk. by rewrite Hk.
  - rewrite Hm. apply Hn.
Qed.

Lemma commits_tidy (io : oracle) (req_file : option file) :
  commits io req_file → tidy io req_file.
Proof. intros Hc f Hf E. rewrite (Hc f Hf) in E. discriminate. Qed.

Lemma names_upload (io : oracle) (req_file : option file) (st : state) :
  tidy io req_file → names_inv' st → names_inv' (upload' io req_file st).1.
Proof.
  intros Ht Hn. destruct req_file as [f|]; [|done].
  destruct (upload_cases sha256 chunk_size JSON_stringify chunk_size_pos io f st)
    as (cs & _ & _ & _ & _ & Hpost).
  destruct (upload' io (Some f) st) as [st' out]. simpl in *.
  destruct Hn as [Hkeys Hfiles]. specialize (Ht f eq_refl).
  destruct Hpost as [s e Hp|s w name hs Hp Hio|s w name hs Hp Hio];
    [| rewrite (cut_manifest_atomic _ _ _ _ _ _ Hio (Ht Hio)) |];
    apply chunk_phase_frame in Hp as (Hm & Hd & _ & _); split; simpl;
    rewrite ?Hm, ?Hd; try done.
  - intros n v. rewrite lookup_insert. case_decide as En; [|by apply Hkeys].
    intros _. subst n. apply StrFacts.basename_no_slash.
  - intros n v. rewrite lookup_insert. case_decide as En; [|by apply Hkeys].
    intros _. subst n. apply StrFacts.basename_no_slash.
  - intros k t. rewrite lookup_insert. case_decide as Ek; [|by apply Hfiles].
    intros [= <-]. eexists (Manifest name _ hs). simpl.
    split; [done |]. split; [done |]. apply StrFacts.basename_no_slash.
Qed.

Lemma names_reachable (P : oracle → option file → Prop) (st : state) :
  (∀ io rf, P io rf → tidy io rf) →
  reachable sha256 chunk_size JSON_stringify JSON_parse P st → names_inv' st.
Proof.
  intros HP. induction 1 as [|st io rf _ IH HP'|st name _ IH|st _ IH].
  - apply names_init.
  - apply names_upload; [by apply HP | done].
  - by rewrite download_eq.
  - by apply names_restart.
Qed.

Lemma synced_restart (st : state) : names_inv' st → synced' (restart' st).
Proof.
  intros Hn n.
  pose proof (restart_post JSON_stringify JSON_parse JSON_roundtrip st)
    as [_ Hm _ _ _]. simpl in Hm. rewrite Hm.
  destruct (fileMeta (restart' st) !! n) as [v|] eqn:E; simpl.
  - by apply restart_index in E; [|apply files_recoverable].
  - destruct (manifestDir st !! (n +:+ ".json")) as [t|] eqn:Et; [|done].
    destruct (files_ok _ _ Hn _ _ Et) as ([n' s hs] & Hk & -> & _).
    simpl in Hk. apply StrFacts.append_inj_r in Hk as ->.
    apply (restart_index st n' (Meta s hs) (files_recoverable _ Hn)) in Et.
    congruence.
Qed.

(** A restart of a state whose index agrees with the manifests on disk
    rebuilds the same index. *)
Lemma restart_synced_index (st : state) :
  names_inv' st → synced' st → fileMeta (restart' st) = fileMeta st.
Proof.
  intros Hn Hs. apply map_eq. intros n. apply option_eq. intros v.
  rewrite (restart_index st n v (files_recoverable _ Hn)), (Hs n). split.
  - destruct (fileMeta st !! n) as [[s hs]|]; simpl; [|done].
    intros [= E]. apply (JSON_stringify_inj _ _ JSON_roundtrip) in E.
    destruct v. simpl in E. by injection E as -> ->.
  - intros ->. by destruct v.
Qed.

Lemma synced_upload (io : oracle) (req_file : option file) (st : state) :
  commits io req_file → synced' st → synced' (upload' io req_file st).1.
Proof.
  intros Hc Hs. destruct req_file as [f|]; [|done].
  destruct (upload_cases sha256 chunk_size JSON_stringify chunk_size_pos io f st)
    as (cs & _ & _ & _ & _ & Hpost).
  destruct (upload' io (Some f) st) as [st' out]. simpl in *.
  specialize (Hc f eq_refl).
  destruct Hpost as [s e Hp|s w name hs Hp Hio|s w name hs Hp Hio];
    apply chunk_phase_frame in Hp as (Hm & Hd & _ & _).
  - intros n. by rewrite Hm, Hd.
  - subst name. congruence.
  - intros n. simpl. rewrite Hm, Hd.
    destruct (decide (name = n)) as [->|Hne].
    + by rewrite !lookup_insert_eq.
    + rewrite !lookup_insert_ne; [apply Hs | done |].
      intros E. by apply StrFacts.append_inj_r in E.
Qed.

Lemma synced_reachable (st : state) :
  reachable sha256 chunk_size JSON_stringify JSON_parse commits st → synced' st.
Proof.
  intros H. induction H as [|st io rf H IH Hc|st name _ IH|st H IH].
  - rewrite init_eq. intros n. simpl. by rewrite !lookup_empty.
  - by apply synced_upload.
  - by rewrite download_eq.
  - apply synced_restart. eapply names_reachable; [|done].
    intros. by apply commits_tidy.
Qed.
End NamesFacts.

Lemma truncate_all (s : string) (n : nat) :
  String.length s ≤ n → Str.truncate n s = s.
Proof.
  unfold Str.truncate, Str.chars, Str.of_chars.
  revert n. induction s as [|c r IH]; intros n Hn; simpl.
  - by rewrite take_nil.
  - destruct n as [|n]; simpl in *; [lia |]. rewrite IH; [done | lia].
Qed.

Section KeysFacts.
Variable sha256 : list byte → list byte.
Variable chunk_size : nat.
Variable JSON_stringify : manifest → string.
Variable JSON_parse : string → option manifest.
Hypothesis chunk_size_pos : 0 < chunk_size.
Hypothesis JSON_roundtrip : ∀ m, JSON_parse (JSON_stringify m) = Some m.
Hypothesis JSON_prefix : ∀ m n, n < String.length (JSON_stringify m) →
  JSON_parse (Str.truncate n (JSON_stringify m)) = None.

Local Abbreviation upload' := (upload sha256 chunk_size JSON_stringify).
Local Abbreviation restart' := (restart JSON_parse).
Local Abbreviation keys_inv' := (keys_inv JSON_parse).

Lemma keys_init : keys_inv' (init JSON_parse).
Proof.
  rewrite init_eq. split; simpl; intros; by rewrite lookup_empty in *.
Qed.

Lemma keys_restart (st : state) : keys_inv' st → keys_inv' (restart' st).
Proof.
  intros [Hk Hf].
  destruct (restart_post JSON_stringify JSON_parse JSON_roundtrip st)
    as [_ Hm _ Hfrom _]. simpl in Hm. split.
  - intros n v Hv. destruct (Hfrom n v Hv) as [Hv'|(k & t & Hkt & _ & Hp)].
    { simpl in Hv'. by rewrite lookup_empty in Hv'. }
    apply (Hf k t _ Hkt Hp).
  - rewrite Hm. apply Hf.
Qed.

Lemma keys_upload (io : oracle) (req_file : option file) (st : state) :
  keys_inv' st → keys_inv' (upload' io req_file st).1.
Proof.
  intros [Hk Hf]. destruct req_file as [f|]; [|done].
  destruct (upload_cases sha256 chunk_size JSON_stringify chunk_size_pos io f st)
    as (cs & _ & _ & _ & _ & Hpost).
  destruct (upload' io (Some f) st) as [st' out]. simpl in *.
  destruct Hpost as [s e Hp|s w name hs Hp Hio|s w name hs Hp Hio];
    apply chunk_phase_frame in Hp as (Hm & Hd & _ & _).
  - split; rewrite ?Hm, ?Hd; done.
  - unfold cut_manifest.
    destruct (leaves io Manifests (name +:+ ".json")) as [n|]; split; simpl;
      rewrite ?Hm, ?Hd; try done.
    + intros n' v. rewrite lookup_insert. case_decide as En; [|by apply Hk].
      intros _. subst n'. apply StrFacts.basename_no_slash.
    + intros k t m. rewrite lookup_insert. case_decide as Ek; [|by apply Hf].
      intros [= <-] Hp.
      destruct (decide (n < String.length
        (JSON_stringify (Manifest name (Str.join "-" hs) hs)))) as [Hlt|Hge].
      * rewrite JSON_prefix in Hp by done. discriminate.
      * rewrite truncate_all, JSON_roundtrip in Hp by lia.
        injection Hp as <-. apply StrFacts.basename_no_slash.
    + intros n' v. rewrite lookup_insert. case_decide as En; [|by apply Hk].
      intros _. subst n'. apply StrFacts.basename_no_slash.
  - split; simpl; rewrite ?Hm, ?Hd.
    + intros n' v. rewrite lookup_insert. case_decide as En; [|by apply Hk].
      intros _. subst n'. apply StrFacts.basename_no_slash.
    + intros k t m. rewrite lookup_insert. case_decide as Ek; [|by apply Hf].
      intros [= <-]. rewrite JSON_roundtrip. intros [= <-].
      apply StrFacts.basename_no_slash.
Qed.

Lemma keys_reachable (P : oracle → option file → Prop) (st : state) :
  reachable sha256 chunk_size JSON_stringify JSON_parse P st → keys_inv' st.
Proof.
  induction 1 as [|st io rf _ IH _|st name _ IH|st _ IH].
  - apply keys_init.
  - by apply keys_upload.
  - by rewrite download_eq.
  - by apply keys_restart.
Qed.
End KeysFacts.

(** ** The chunk store *)

Lemma fmap_eq_elem {A B} (f g : A → B) (l : list A) (x : A) :
  f <$> l = g <$> l → x ∈ l → f x = g x.
Proof.
  induction l as [|a l IH]; simpl; intros E Hx.
  - by apply elem_of_nil in Hx.
  - injection E as E1 E2. apply elem_of_cons in Hx as [->|Hx]; [done | by apply IH].
Qed.

Section StoreFacts.
Variable sha256 : list byte → list byte.
Variable chunk_size : nat.
Variable JSON_stringify : manifest → string.
Variable JSON_parse : string → option manifest.
Variable U : list byte → Prop.
Hypothesis chunk_size_pos : 0 < chunk_size.
Hypothesis sha256_length : ∀ d, length (sha256 d) = 32.
Hypothesis JSON_roundtrip : ∀ m, JSON_parse (JSON_stringify m) = Some m.
Hypothesis JSON_prefix : ∀ m n, n < String.length (JSON_stringify m) →
  JSON_parse (Str.truncate n (JSON_stringify m)) = None.
Hypothesis U_collision_free : collision_free sha256 U.

Local Abbreviation upload' := (upload sha256 chunk_size JSON_stringify).
Local Abbreviation restart' := (restart JSON_parse).
Local Abbreviation digest' := (digest sha256).
Local Abbreviation stored' := (stored sha256).
Local Abbreviation describes' := (describes sha256).
Local Abbreviation store_inv' := (store_inv sha256 JSON_parse U).

Lemma digest_word (d : list byte) : Str.word (digest' d).
Proof.
  split; [|apply StrFacts.hex_no_dash].
  apply StrFacts.hex_nonempty. intros E.
  pose proof (sha256_length d) as H. by rewrite E in H.
Qed.

Lemma digests_words (ds : list (list byte)) : Forall Str.word (digest' <$> ds).
Proof. apply Forall_fmap, Forall_forall. intros d _. apply digest_word. Qed.

Lemma digests_inj (l1 l2 : list (list byte)) :
  Forall U l1 → Forall U l2 → digest' <$> l1 = digest' <$> l2 → l1 = l2.
Proof.
  intros H1. revert l2. induction H1 as [|a l1 Ha _ IH]; intros l2 H2 E;
    destruct H2 as [|b l2 Hb H2]; simpl in E; try done.
  injection E as E1 E2. f_equal; [by apply U_collision_free | by apply IH].
Qed.

Lemma stored_mono (st s : state) (ds : list (list byte)) :
  chunksDir st ⊆ chunksDir s → stored' st ds → stored' s ds.
Proof.
  intros Hsub Hst. eapply Forall_impl; [exact Hst |].
  intros d Hd. simpl in Hd. eapply lookup_weaken; [exact Hd | exact Hsub].
Qed.

Lemma describes_mono (st s : state) (sig : string) (hs : list string) :
  chunksDir st ⊆ chunksDir s → describes' st sig hs → describes' s sig hs.
Proof.
  intros Hsub (ds & ? & ? & Hst). exists ds. eauto using stored_mono.
Qed.

Lemma stored_in_U (st : state) (ds : list (list byte)) :
  store_inv' st → stored' st ds → Forall U ds.
Proof.
  intros Hinv Hst. eapply Forall_impl; [exact Hst |]. intros d Hd.
  simpl in Hd. by destruct (blobs_ok _ _ _ _ Hinv _ _ Hd).
Qed.

(** A signature of the index names a chunk sequence that is stored. *)
Lemma seen_stored (st : state) (ds : list (list byte)) :
  store_inv' st → Forall U ds →
  Str.join "-" (digest' <$> ds) ∈ fileSignatures st → stored' st ds.
Proof.
  intros Hinv HU Hin.
  destruct (sigs_ok _ _ _ _ Hinv _ Hin) as (hs & ds' & -> & E & Hst).
  apply StrFacts.join_inj in E; [|apply digests_words..].
  apply digests_inj in E; [by subst | done |]. by eapply stored_in_U.
Qed.

Lemma store_extend (st s : state) :
  store_inv' st →
  (∀ k d, chunksDir s !! k = Some d → k = digest' d +:+ ".chunk" ∧ U d) →
  chunksDir st ⊆ chunksDir s →
  (∀ x, x ∈ fileSignatures s →
        x ∈ fileSignatures st ∨ ∃ hs, describes' s x hs) →
  (∀ n m, fileMeta s !! n = Some m →
          fileMeta st !! n = Some m ∨
          describes' s (signature m) (chunkHashes m)) →
  (∀ k t m, manifestDir s !! k = Some t → JSON_parse t = Some m →
            manifestDir st !! k = Some t ∨
            describes' s (json_signature m) (json_chunkHashes m)) →
  store_inv' s.
Proof.
  intros [Hb Hs Hm Hf] Hb' Hsub Hs' Hm' Hf'. split; [done | | |].
  - intros x Hx. destruct (Hs' x Hx) as [Hx'|?]; [|done].
    destruct (Hs x Hx') as [hs ?]. exists hs. by eapply describes_mono.
  - intros n m Hn. destruct (Hm' n m Hn) as [Hn'|?]; [|done].
    eapply describes_mono; eauto.
  - intros k t m Hk Hp. destruct (Hf' k t m Hk Hp) as [Hk'|?]; [|done].
    eapply describes_mono; eauto.
Qed.

Lemma blobs_grow (io : oracle) (cs : list chunk) (w : bool) (st s : state)
    (out : outcome bool) :
  atomic io ∨ (∃ w', out = Ok w') →
  store_inv' st → forEach_post io cs w st s out →
  hash <$> cs = digest' <$> (data <$> cs) → Forall U (data <$> cs) →
  ∀ k d, chunksDir s !! k = Some d → k = digest' d +:+ ".chunk" ∧ U d.
Proof.
  intros Hex Hinv Hpost Hh HU k d Hk. rewrite <- list_fmap_compose in Hh.
  destruct (fe_new _ _ _ _ _ _ Hpost k d Hk)
    as [Hk'|(c & Hc & -> & [->|(n & Hio & Hl & _ & Hout)])].
  - by eapply blobs_ok.
  - split.
    + f_equal. by apply (fmap_eq_elem _ _ _ _ Hh).
    + rewrite Forall_fmap, Forall_forall in HU. by apply HU.
  - destruct Hex as [Ha|[w' ->]]; [|done].
    rewrite (Ha _ Hio) in Hl. discriminate.
Qed.

Lemma written_stored (io : oracle) (cs : list chunk) (w w' : bool) (st s : state) :
  store_inv' st → forEach_post io cs w st s (Ok w') →
  hash <$> cs = digest' <$> (data <$> cs) → Forall U (data <$> cs) →
  stored' s (data <$> cs).
Proof.
  intros Hinv Hpost Hh HU.
  assert (atomic io ∨ (∃ w0, Ok w' = Ok w0 :> outcome bool)) as Hex
    by (right; by exists w').
  pose proof (blobs_grow _ _ _ _ _ _ Hex Hinv Hpost Hh HU) as Hb.
  destruct (fe_out _ _ _ _ _ _ Hpost) as (Hall & _).
  rewrite <- list_fmap_compose in Hh.
  apply Forall_fmap, Forall_forall. intros c Hc.
  destruct (Hall c Hc) as [d Hd]. destruct (Hb _ _ Hd) as [Hk Hd'].
  apply StrFacts.append_inj_r in Hk.
  pose proof (fmap_eq_elem _ _ _ _ Hh Hc) as Hhc. simpl in *.
  rewrite <- Hhc, Hd. f_equal. apply U_collision_free; [done | | congruence].
  rewrite Forall_fmap, Forall_forall in HU. by apply HU.
Qed.

(** The chunk phase keeps the store consistent when no write of it leaves
    a file cut short and, when it succeeds, leaves every chunk of the
    upload stored. *)
Lemma phase_store (io : oracle) (cs : list chunk) (st s : state)
    (out : outcome bool) :
  atomic io ∨ (∃ w, out = Ok w) →
  store_inv' st →
  chunk_phase io cs (Str.join "-" (hash <$> cs)) st s out →
  hash <$> cs = digest' <$> (data <$> cs) → Forall U (data <$> cs) →
  store_inv' s ∧ (∀ w, out = Ok w → stored' s (data <$> cs)).
Proof.
  intros Hex Hinv Hp Hh HU.
  destruct Hp as [Hin|s w Hout Hpost|s e Hout Hpost].
  - split; [done |]. intros _ _. apply seen_stored; [done | done |].
    by rewrite <- Hh.
  - pose proof (written_stored _ _ _ _ _ _ Hinv Hpost Hh HU) as Hst.
    split; [|done].
    pose proof (blobs_grow _ _ _ _ _ _ Hex Hinv Hpost Hh HU) as Hb.
    destruct Hpost as [H1 H2 H3 H4 H5 H6].
    apply (store_extend st); simpl; rewrite ?H1, ?H3; eauto.
    intros x. rewrite H2, elem_of_union, elem_of_singleton.
    intros [->|?]; [right | by left].
    exists (hash <$> cs), (data <$> cs). by rewrite Hh at 1.
  - split; [|done].
    pose proof (blobs_grow _ _ _ _ _ _ Hex Hinv Hpost Hh HU) as Hb.
    destruct Hpost as [H1 H2 H3 H4 H5 H6].
    apply (store_extend st); simpl; rewrite ?H1, ?H2, ?H3; eauto.
Qed.

Lemma store_init : store_inv' (init JSON_parse).
Proof.
  rewrite init_eq. split; simpl.
  - intros ? ? H. by rewrite lookup_empty in H.
  - intros ? H. by apply not_elem_of_empty in H.
  - intros ? ? H. by rewrite lookup_empty in H.
  - intros ? ? ? H. by rewrite lookup_empty in H.
Qed.

Lemma store_restart (st : state) : store_inv' st → store_inv' (restart' st).
Proof.
  intros Hinv.
  destruct (restart_post JSON_stringify JSON_parse JSON_roundtrip st)
    as [Hc Hm Hs Hfrom _]. simpl in *.
  assert (chunksDir st ⊆ chunksDir (restart' st)) as Hsub by by rewrite Hc.
  apply (store_extend st); rewrite ?Hc, ?Hm; eauto.
  - by eapply blobs_ok.
  - intros x Hx. apply Hs in Hx as [Hx|(m & (k & t & Hk & _ & Hp) & <-)].
    { by apply not_elem_of_empty in Hx. }
    right. exists (json_chunkHashes m).
    eapply describes_mono; [done |]. by eapply manifests_ok.
  - intros n m Hn. destruct (Hfrom n m Hn) as [Hn'|(k & t & Hk & _ & Hp)].
    { by rewrite lookup_empty in Hn'. }
    right. eapply describes_mono; [done |].
    by apply (manifests_ok _ _ _ _ Hinv k t _ Hk Hp).
Qed.

(** An upload keeps the store consistent when it succeeds, and also when
    it fails in an environment whose failed writes leave no file. *)
Lemma store_upload (io : oracle) (req_file : option file) (st : state) :
  atomic io ∨ (∃ r, (upload' io req_file st).2 = Ok r) →
  store_inv' st → within sha256 chunk_size U req_file →
  store_inv' (upload' io req_file st).1.
Proof.
  intros Hex Hinv Hw. destruct req_file as [f|]; [|done].
  destruct (upload_cases sha256 chunk_size JSON_stringify chunk_size_pos io f st)
    as (cs & Hcs & _ & Hh & _ & Hpost).
  destruct (upload' io (Some f) st) as [st' out]. simpl in *.
  assert (Forall U (data <$> cs)) as HU
    by (apply Forall_fmap; exact (Hw f cs eq_refl Hcs)).
  destruct Hpost as [s e Hp|s w name hs Hp Hio|s w name hs Hp Hio].
  - destruct Hex as [Ha|[r ?]]; [|done].
    by destruct (phase_store io cs st s (Err e) (or_introl Ha) Hinv Hp Hh HU).
  - assert (atomic io ∨ (∃ w0, Ok w = Ok w0 :> outcome bool)) as Hex'
      by (right; by exists w).
    destruct (phase_store io cs st s (Ok w) Hex' Hinv Hp Hh HU) as [Hinv' Hst].
    unfold cut_manifest.
    destruct (leaves io Manifests (name +:+ ".json")) as [n|];
      apply (store_extend s); simpl; eauto using blobs_ok.
    + intros n' m. rewrite lookup_insert. case_decide; [|by left].
      intros [= <-]. right. exists (data <$> cs). simpl. eauto.
    + intros k t m. rewrite lookup_insert. case_decide; [|by left].
      intros [= <-] Hpt.
      destruct (decide (n < String.length
        (JSON_stringify (Manifest name (Str.join "-" hs) hs)))) as [Hlt|Hge].
      * rewrite JSON_prefix in Hpt by done. discriminate.
      * rewrite truncate_all, JSON_roundtrip in Hpt by lia.
        injection Hpt as <-. right. exists (data <$> cs). simpl. eauto.
    + intros n' m. rewrite lookup_insert. case_decide; [|by left].
      intros [= <-]. right. exists (data <$> cs). simpl. eauto.
  - assert (atomic io ∨ (∃ w0, Ok w = Ok w0 :> outcome bool)) as Hex'
      by (right; by exists w).
    destruct (phase_store io cs st s (Ok w) Hex' Hinv Hp Hh HU) as [Hinv' Hst].
    apply (store_extend s); simpl; eauto using blobs_ok.
    + intros n m. rewrite lookup_insert. case_decide; [|by left].
      intros [= <-]. right. exists (data <$> cs). simpl. eauto.
    + intros k t m. rewrite lookup_insert. case_decide; [|by left].
      intros [= <-]. rewrite JSON_roundtrip. intros [= <-].
      right. exists (data <$> cs). simpl. eauto.
Qed.

Lemma store_reachable (st : state) :
  reachable sha256 chunk_size JSON_stringify JSON_parse
    (orderly sha256 chunk_size U) st →
  store_inv' st.
Proof.
  induction 1 as [|st io rf _ IH [Hw Ha]|st name _ IH|st _ IH].
  - apply store_init.
  - apply store_upload; [by left | done | done].
  - by rewrite download_eq.
  - by apply store_restart.
Qed.
End StoreFacts.

(** ** The toy instance satisfies the assumptions *)

Module ToyFacts.
Import Toy.

Lemma sha256_length (d : list byte) : length (sha256 d) = 32.
Proof.
  unfold sha256. rewrite length_take, length_app, length_replicate. lia.
Qed.

Lemma fields_enc (cur : list ascii) (s rest : string) :
  fields cur (enc s +:+ rest) =
    cons (Str.of_chars (reverse cur ++ Str.chars s)) <$> fields [] rest.
Proof.
  revert cur. induction s as [|c r IH]; intros cur; simpl.
  - by rewrite app_nil_r.
  - rewrite IH, reverse_cons, <- app_assoc. done.
Qed.

Lemma fields_enc_all (l : list string) : fields [] (enc_all l) = Some l.
Proof.
  induction l as [|s r IH]; simpl; [done |].
  rewrite fields_enc, IH. simpl. do 2 f_equal.
  apply string_of_list_ascii_of_string.
Qed.

Lemma parse_stringify (m : manifest) : parse (stringify m) = Some m.
Proof.
  unfold parse, stringify. rewrite fields_enc_all. by destruct m.
Qed.

(** A record cut short lacks its closing ["2"] and does not parse. *)
Lemma fields_cut_enc (s rest : string) :
  (∀ n, n < String.length rest → fields [] (Str.truncate n rest) = None) →
  ∀ cur n, n < String.length (enc s +:+ rest) →
    fields cur (Str.truncate n (enc s +:+ rest)) = None.
Proof.
  intros Hrest. induction s as [|c r IH]; intros cur n Hn.
  - destruct n as [|n]; [done |].
    change (String.length (enc "" +:+ rest))
      with (S (String.length rest)) in Hn.
    change (Str.truncate (S n) (enc "" +:+ rest))
      with (String "0" (Str.truncate n rest)).
    simpl. rewrite Hrest; [done | lia].
  - destruct n as [|[|n]]; [done | done |].
    change (String.length (enc (String c r) +:+ rest))
      with (S (S (String.length (enc r +:+ rest)))) in Hn.
    change (Str.truncate (S (S n)) (enc (String c r) +:+ rest))
      with (String "1" (String c (Str.truncate n (enc r +:+ rest)))).
    simpl. apply IH. lia.
Qed.

Lemma fields_cut (l : list string) (n : nat) :
  n < String.length (enc_all l) → fields [] (Str.truncate n (enc_all l)) = None.
Proof.
  revert n. induction l as [|s r IH]; intros n Hn; simpl in *.
  - by replace n with 0 by lia.
  - by apply fields_cut_enc.
Qed.

Lemma parse_truncated (m : manifest) (n : nat) :
  n < String.length (stringify m) → parse (Str.truncate n (stringify m)) = None.
Proof.
  intros Hn. unfold parse, stringify. by rewrite fields_cut.
Qed.

Lemma chunk_size_pos : 0 < CHUNK_SIZE.
Proof. unfold CHUNK_SIZE. lia. Qed.

End ToyFacts.

(** ** Reconstruction *)

(** C4 (as amended).  Reconstruct answers NotFound exactly when the
    basename of the requested name is not a key of the file index;
    otherwise a digest of the manifest without a blob makes the whole
    request fail with CorruptStore, and a success returns the blobs of all
    digests, concatenated in the order of the manifest: no shorter output
    is ever produced.  With every blob present the request succeeds when
    the basename is accepted as a header value, and fails with
    CorruptStore when it is not. *)
Theorem download_outcome (st : state) (name : string) :
  ((download name st).2 = Err NotFound ↔ fileMeta st !! safeName name = None) ∧
  (∀ m, fileMeta st !! safeName name = Some m →
     (Exists (λ h, chunksDir st !! (h +:+ ".chunk") = None) (chunkHashes m) →
      (download name st).2 = Err CorruptStore) ∧
     (∀ bs, Forall2 (λ h b, chunksDir st !! (h +:+ ".chunk") = Some b)
                    (chunkHashes m) bs →
      (download name st).2 =
        if header_ok (safeName name) then Ok (concat bs) else Err CorruptStore)) ∧
  (∀ out, (download name st).2 = Ok out →
     ∃ m bs, fileMeta st !! safeName name = Some m ∧
             Forall2 (λ h b, chunksDir st !! (h +:+ ".chunk") = Some b)
                     (chunkHashes m) bs ∧
             header_ok (safeName name) = true ∧
             out = concat bs).
Proof.
  rewrite download_eq. unfold reconstruct. simpl.
  destruct (fileMeta st !! safeName name) as [m|] eqn:Em.
  - split; [|split].
    + split; [|done]. destruct (mapM _ _); [|done].
      by destruct (header_ok _).
    + intros m' [= <-]. split.
      * intros Hex. apply mapM_None_2 in Hex. by rewrite Hex.
      * intros bs Hbs. apply mapM_Some_2 in Hbs. by rewrite Hbs.
    + intros out. destruct (mapM _ _) as [bs|] eqn:Ebs; [|done].
      destruct (header_ok _) eqn:Eh; [|done].
      intros [= <-]. exists m, bs. split; [done |]. split; [|done].
      by apply mapM_Some_1.
  - split; [done |]. split; [done |]. done.
Qed.

(** The literal reading of C4 fails: after an upload named ["b"], the name
    ["a/b"] is not a key of the file index, yet its download succeeds. *)
Lemma notfound_iff_absent_counterexample :
  ¬ (∀ st name, (download name st).2 = Err NotFound ↔ fileMeta st !! name = None).
Proof.
  intros H.
  destruct (H (Toy.upload io_ok (Some (File [x01] "b")) Toy.init).1 "a/b") as [_ H'].
  vm_compute in H'. specialize (H' eq_refl). discriminate.
Qed.

(** C10.  A download, whatever its outcome, leaves the file index, the
    signature index, the chunk directory and the manifest directory as
    they were. *)
Theorem download_read_only (st : state) (name : string) :
  fileMeta (download name st).1 = fileMeta st ∧
  fileSignatures (download name st).1 = fileSignatures st ∧
  chunksDir (download name st).1 = chunksDir st ∧
  manifestDir (download name st).1 = manifestDir st.
Proof. by rewrite download_eq. Qed.

(** ** Uploads *)

Lemma phase_sig_in (io : oracle) (cs : list chunk) (sig : string)
    (st s : state) (w : bool) :
  chunk_phase io cs sig st s (Ok w) → sig ∈ fileSignatures s.
Proof.
  inversion 1; subst; [done |]. simpl. apply elem_of_union. left.
  by apply elem_of_singleton.
Qed.

Lemma phase_wrote (io : oracle) (cs : list chunk) (sig : string)
    (st s : state) (w : bool) :
  chunk_phase io cs sig st s (Ok w) →
  (w = false → chunksDir s = chunksDir st) ∧
  (chunksDir s = chunksDir st → w = false).
Proof.
  inversion 1 as [|s' w' Hout Hpost|]; subst; [done |]. simpl.
  destruct (fe_out _ _ _ _ _ _ Hpost) as (_ & Ha & Hb). split; [|done].
  intros Hw. by destruct (Ha Hw).
Qed.

Lemma forEach_fails (io : oracle) (cs : list chunk) (w : bool) (st : state) (c : chunk) :
  c ∈ cs → chunksDir st !! (hash c +:+ ".chunk") = None →
  io Chunks (hash c +:+ ".chunk") = false →
  ∃ s k, forEach_chunk io cs w st = (s, Err (WriteFailed Chunks k)).
Proof.
  revert w st. induction cs as [|c0 cs IH]; intros w st Hc Habs Hio.
  - by apply elem_of_nil in Hc.
  - simpl. unfold bind. rewrite write_new_chunk_eq.
    destruct (chunksDir st !! (hash c0 +:+ ".chunk")) as [d|] eqn:E0.
    + apply elem_of_cons in Hc as [->|Hc]; [congruence |]. by apply IH.
    + destruct (io Chunks (hash c0 +:+ ".chunk")) eqn:Eio0;
        [|destruct (leaves io Chunks _); eauto].
      apply elem_of_cons in Hc as [->|Hc]; [congruence |].
      apply IH; [done | | done]. simpl.
      rewrite lookup_insert_ne; [done | congruence].
Qed.

Lemma forEach_succeeds (io : oracle) (cs : list chunk) (w : bool) (st : state) :
  (∀ k, io Chunks k = true) → ∃ s w', forEach_chunk io cs w st = (s, Ok w').
Proof.
  intros Hio. revert w st. induction cs as [|c cs IH]; intros w st; simpl.
  - by eexists _, _.
  - unfold bind. rewrite write_new_chunk_eq, Hio.
    destruct (chunksDir st !! (hash c +:+ ".chunk")); apply IH.
Qed.

(** ** The signature index *)

Section SignatureFacts.
Variable sha256 : list byte → list byte.
Variable chunk_size : nat.
Variable JSON_stringify : manifest → string.
Variable JSON_parse : string → option manifest.
Hypothesis chunk_size_pos : 0 < chunk_size.
Hypothesis JSON_roundtrip : ∀ m, JSON_parse (JSON_stringify m) = Some m.

Local Abbreviation upload' := (upload sha256 chunk_size JSON_stringify).
Local Abbreviation restart' := (restart JSON_parse).
Local Abbreviation reachable' :=
  (reachable sha256 chunk_size JSON_stringify JSON_parse).

Lemma names_commits (st : state) :
  reachable' commits st → names_inv JSON_stringify st.
Proof.
  apply names_reachable; [done | done |]. intros. by apply commits_tidy.
Qed.

(** A restart puts in the signature index the signatures of the saved
    manifests, and no other. *)
Lemma restart_sigs_saved (st : state) (s : string) :
  recoverable JSON_stringify JSON_parse (manifestDir st) →
  s ∈ fileSignatures (restart' st) ↔
  ∃ n hs, manifestDir st !! (n +:+ ".json") =
            Some (JSON_stringify (Manifest n s hs)).
Proof.
  intros Hrec.
  destruct (restart_post JSON_stringify JSON_parse JSON_roundtrip st)
    as [_ _ Hs _ _]. simpl in Hs. rewrite Hs. split.
  - intros [Hin|(m & (k & t & Hk & He & Hp) & <-)].
    { by apply not_elem_of_empty in Hin. }
    destruct (Hrec k t Hk) as [He'|[Hp'|(m' & -> & ->)]]; [congruence.. |].
    rewrite JSON_roundtrip in Hp. injection Hp as ->.
    exists (json_filename m), (json_chunkHashes m). by destruct m.
  - intros (n & hs & Hk). right. exists (Manifest n s hs). split; [|done].
    exists (n +:+ ".json"), (JSON_stringify (Manifest n s hs)).
    by rewrite StrFacts.endsWith_append.
Qed.

(** When the index agrees with the manifests on disk, these are the
    signatures of the indexed files. *)
Lemma restart_sigs_indexed (st : state) (s : string) :
  names_inv JSON_stringify st → synced JSON_stringify st →
  s ∈ fileSignatures (restart' st) ↔
  ∃ n m, fileMeta st !! n = Some m ∧ signature m = s.
Proof.
  intros Hn Hsync.
  rewrite (restart_sigs_saved st s (files_recoverable _ JSON_parse _ Hn)).
  split.
  - intros (n & hs & Hk). rewrite (Hsync n) in Hk.
    destruct (fileMeta st !! n) as [v|] eqn:Ev; [|done].
    simpl in Hk. injection Hk as Hk.
    apply (JSON_stringify_inj _ _ JSON_roundtrip) in Hk.
    exists n, v. split; [done |]. by injection Hk.
  - intros (n & m & Hm & <-). exists n, (chunkHashes m).
    by rewrite (Hsync n), Hm.
Qed.

(** The signature of every indexed file is in the signature index. *)
Lemma indexed_sigs (P : oracle → option file → Prop) (st : state) :
  reachable' P st →
  ∀ n m, fileMeta st !! n = Some m → signature m ∈ fileSignatures st.
Proof.
  induction 1 as [|st io rf _ IH _|st name _ IH|st _ IH]; intros n m Hn.
  - rewrite init_eq in Hn. simpl in Hn. by rewrite lookup_empty in Hn.
  - destruct rf as [f|]; [|by eapply IH].
    destruct (upload_cases sha256 chunk_size JSON_stringify chunk_size_pos io f st)
      as (cs & _ & _ & _ & _ & Hpost).
    destruct (upload' io (Some f) st) as [st' out]. simpl in *.
    assert (∀ s o, chunk_phase io cs (Str.join "-" (hash <$> cs)) st s o →
              ∀ n m, fileMeta s !! n = Some m → signature m ∈ fileSignatures s)
      as Hold.
    { intros s o Hp n' m' Hn'.
      apply chunk_phase_frame in Hp as (Hm & _ & _ & Hsig). rewrite Hm in Hn'.
      apply IH in Hn'. destruct Hsig as [-> | [-> _]]; [done |].
      apply elem_of_union. by right. }
    destruct Hpost as [s e Hp|s w name hs Hp Hio|s w name hs Hp Hio];
      rewrite ?(cut_manifest_meta JSON_stringify),
              ?(cut_manifest_sigs JSON_stringify) in *;
      simpl in *; [by eapply Hold | |];
      (rewrite lookup_insert in Hn; case_decide;
         [injection Hn as <-; simpl; by eapply phase_sig_in | by eapply Hold]).
  - rewrite download_eq in *. simpl in *. by eapply IH.
  - destruct (restart_post JSON_stringify JSON_parse JSON_roundtrip st)
      as [_ _ Hs Hfrom _]. simpl in *.
    destruct (Hfrom n m Hn) as [Hn'|Hl]; [by rewrite lookup_empty in Hn' |].
    apply Hs. right. by eexists.
Qed.
End SignatureFacts.

(** ** Round trip *)

Section RoundTrip.
Variable sha256 : list byte → list byte.
Variable chunk_size : nat.
Variable JSON_stringify : manifest → string.
Variable JSON_parse : string → option manifest.
Variable U : list byte → Prop.
Hypothesis chunk_size_pos : 0 < chunk_size.
Hypothesis sha256_length : ∀ d, length (sha256 d) = 32.
Hypothesis JSON_roundtrip : ∀ m, JSON_parse (JSON_stringify m) = Some m.
Hypothesis JSON_prefix : ∀ m n, n < String.length (JSON_stringify m) →
  JSON_parse (Str.truncate n (JSON_stringify m)) = None.
Hypothesis U_collision_free : collision_free sha256 U.

Local Abbreviation upload' := (upload sha256 chunk_size JSON_stringify).
Local Abbreviation ingest' := (ingest sha256 chunk_size JSON_stringify).
Local Abbreviation store_inv' := (store_inv sha256 JSON_parse U).
Local Abbreviation within' := (within sha256 chunk_size U).
Local Abbreviation reachable' :=
  (reachable sha256 chunk_size JSON_stringify JSON_parse
     (orderly sha256 chunk_size U)).

(** A saved upload can be reconstructed under the name it was filed as,
    when that name is accepted as a header value. *)
Lemma saved_reconstruct (io : oracle) (f : file) (st st' : state) (r : response) :
  store_inv' st → within' (Some f) → upload' io (Some f) st = (st', Ok r) →
  filename r = safeName (or_unnamed (originalname f)) ∧
  reconstruct st' (filename r) =
    if header_ok (filename r) then Ok (buffer f) else Err CorruptStore.
Proof.
  intros Hinv Hw E.
  destruct (upload_cases sha256 chunk_size JSON_stringify chunk_size_pos io f st)
    as (cs & Hcs & _ & Hh & Hc & Hpost).
  rewrite E in Hpost. simpl in Hpost.
  assert (Forall U (data <$> cs)) as HU
    by (apply Forall_fmap; exact (Hw f cs eq_refl Hcs)).
  inversion Hpost as [| |s w name hs Hp Hio]; subst. simpl.
  split; [done |].
  assert (atomic io ∨ (∃ w0, Ok w = Ok w0 :> outcome bool)) as Hex
    by (right; by exists w).
  destruct (phase_store sha256 JSON_parse U sha256_length U_collision_free
              _ _ _ _ _ Hex Hinv Hp Hh HU) as [_ Hst].
  specialize (Hst w eq_refl). subst name hs.
  unfold reconstruct, safeName. rewrite StrFacts.basename_idemp. simpl.
  rewrite lookup_insert_eq. simpl. rewrite Hh.
  rewrite (mapM_fmap_Forall_Some _ (digest sha256) (data <$> cs)); [|done].
  by rewrite Hc.
Qed.

Lemma saved_download (io : oracle) (N : string) (B : list byte)
    (st st' : state) (r : response) :
  store_inv' st → within' (multer_single N B) → header_ok (safeName N) = true →
  ingest' io N B st = (st', Ok r) →
  store_inv' st' ∧ download N st' = (st', Ok B).
Proof.
  intros Hinv Hw Hh E. unfold ingest in E.
  destruct N as [|c N']; [discriminate |].
  change (multer_single (String c N') B)
    with (Some (File B (String c N'))) in E, Hw.
  split.
  - pose proof (store_upload sha256 chunk_size JSON_stringify JSON_parse U
                  chunk_size_pos sha256_length JSON_roundtrip JSON_prefix
                  U_collision_free io (Some (File B (String c N'))) st) as H.
    rewrite E in H. apply H; [right; by exists r | done | done].
  - destruct (saved_reconstruct _ _ _ _ _ Hinv Hw E) as [Hname Hrec].
    rewrite download_eq. f_equal. simpl in Hname, Hrec.
    rewrite Hname, Hh in Hrec. rewrite <- Hrec.
    unfold reconstruct, safeName. by rewrite StrFacts.basename_idemp.
Qed.

(** C1 (as amended).  In every state reached by uploads whose failed chunk
    writes left no file, for every file name [N] whose basename is accepted
    as a header value and every buffer [B]: after a successful upload of
    [B] under [N], a download of [N] returns exactly [B]; after a further
    successful upload of [B2] under the same name it returns [B2]. *)
Theorem roundtrip_last_write_wins (st : state) (io : oracle) (N : string)
    (B : list byte) (st1 : state) (r1 : response) :
  reachable' st → within' (multer_single N B) →
  header_ok (safeName N) = true →
  ingest' io N B st = (st1, Ok r1) →
  download N st1 = (st1, Ok B) ∧
  ∀ io2 B2 st2 r2,
    within' (multer_single N B2) →
    ingest' io2 N B2 st1 = (st2, Ok r2) →
    download N st2 = (st2, Ok B2).
Proof.
  intros Hreach Hw Hh E.
  pose proof (store_reachable sha256 chunk_size JSON_stringify JSON_parse U
                chunk_size_pos sha256_length JSON_roundtrip JSON_prefix
                U_collision_free st Hreach) as Hinv.
  destruct (saved_download _ _ _ _ _ _ Hinv Hw Hh E) as [Hinv1 H1].
  split; [done |].
  intros io2 B2 st2 r2 Hw2 E2.
  by destruct (saved_download _ _ _ _ _ _ Hinv1 Hw2 Hh E2).
Qed.
End RoundTrip.

(** ** The concrete runs satisfy the assumptions *)

Module RunFacts.
Import Run.

Lemma U_collision_free : collision_free Toy.sha256 U.
Proof.
  intros a b [-> | [-> | ->]] [-> | [-> | ->]] H; try done; vm_compute in H; discriminate.
Qed.

Lemma within_U (B : list byte) (N : string) :
  B = B1 ∨ B = B2 → within Toy.sha256 CHUNK_SIZE U (Some (File B N)).
Proof.
  intros HB f cs [= <-] Hcs. simpl in Hcs.
  destruct HB as [-> | ->]; vm_compute in Hcs; injection Hcs as <-;
    (constructor; [|constructor]); unfold U; simpl; auto.
Qed.

End RunFacts.

(** C1 as stated fails in two ways.  An upload under a name with a control
    character succeeds, and the download of that name fails although every
    blob is stored.  And after an upload whose chunk write failed with the
    file created and nothing written, a second upload of the same bytes
    succeeds without writing the chunk, and the download returns no
    bytes. *)
Lemma roundtrip_counterexample :
  ((Toy.ingest io_ok Cases.ctl_name Run.B1 Toy.init).2
     = Ok (Response true Cases.ctl_name 1) ∧
   (download Cases.ctl_name
      (Toy.ingest io_ok Cases.ctl_name Run.B1 Toy.init).1).2
     = Err CorruptStore) ∧
  ((Toy.ingest Cases.io_cut_chunks "a.pdf" Run.B1 Toy.init).2
     = Err (WriteFailed Chunks (Cases.sig1 +:+ ".chunk")) ∧
   (Toy.ingest io_ok "a.pdf" Run.B1 Cases.st_cut).2
     = Ok (Response false "a.pdf" 1) ∧
   (download "a.pdf" (Toy.ingest io_ok "a.pdf" Run.B1 Cases.st_cut).1).2
     = Ok []).
Proof. repeat split; vm_compute; reflexivity. Qed.

Lemma roundtrip_last_write_wins_witness :
  download "a.pdf" Run.st1 = (Run.st1, Ok Run.B1) ∧
  download "a.pdf" Run.st2 = (Run.st2, Ok Run.B2).
Proof.
  pose proof (roundtrip_last_write_wins Toy.sha256 CHUNK_SIZE Toy.stringify
                Toy.parse Run.U ToyFacts.chunk_size_pos ToyFacts.sha256_length
                ToyFacts.parse_stringify ToyFacts.parse_truncated
                RunFacts.U_collision_free
                Toy.init io_ok "a.pdf" Run.B1 Run.st1 (Response true "a.pdf" 1)
                (reach_init _ _ _ _ _)
                (RunFacts.within_U Run.B1 "a.pdf" (or_introl eq_refl))
                eq_refl
                ltac:(vm_compute; reflexivity)) as [H1 H2].
  split; [exact H1 |].
  apply (H2 io_ok Run.B2 Run.st2 (Response true "a.pdf" 1)
            (RunFacts.within_U Run.B2 "a.pdf" (or_intror eq_refl))).
  vm_compute; reflexivity.
Defined.

(** ** Idempotence, failures and empty uploads *)

Section Ingest.
Variable sha256 : list byte → list byte.
Variable chunk_size : nat.
Variable JSON_stringify : manifest → string.
Hypothesis chunk_size_pos : 0 < chunk_size.

Local Abbreviation upload' := (upload sha256 chunk_size JSON_stringify).
Local Abbreviation chunkAndHash' := (chunkAndHash sha256 chunk_size).

(** C2.  After a successful upload of a file, a second upload of the same
    file computes the same digest list and signature, writes nothing to the
    chunk directory and, once its manifest is saved, reports that no chunk
    was written with the same chunk count; no upload ever changes a blob
    that is already stored. *)
Theorem ingest_idempotent (st : state) (io1 io2 : oracle) (f : file)
    (st1 : state) (r1 : response) :
  upload' io1 (Some f) st = (st1, Ok r1) →
  chunksDir st ⊆ chunksDir st1 ∧
  chunksDir (upload' io2 (Some f) st1).1 = chunksDir st1 ∧
  fileSignatures (upload' io2 (Some f) st1).1 = fileSignatures st1 ∧
  (∃ cs, chunkAndHash' (buffer f) = Some cs ∧
         fileMeta st1 !! filename r1 =
           Some (Meta (Str.join "-" (hash <$> cs)) (hash <$> cs)) ∧
         fileMeta (upload' io2 (Some f) st1).1 !! filename r1 =
           Some (Meta (Str.join "-" (hash <$> cs)) (hash <$> cs))) ∧
  ((upload' io2 (Some f) st1).2 = Ok (Response false (filename r1) (chunkCount r1)) ∨
   (upload' io2 (Some f) st1).2 = Err (WriteFailed Manifests (filename r1 +:+ ".json"))) ∧
  (io2 Manifests (filename r1 +:+ ".json") = true →
   (upload' io2 (Some f) st1).2 = Ok (Response false (filename r1) (chunkCount r1))).
Proof.
  intros E.
  destruct (upload_cases sha256 chunk_size JSON_stringify chunk_size_pos io1 f st)
    as (cs & Hcs & _ & _ & _ & Hpost).
  rewrite E in Hpost. simpl in Hpost.
  inversion Hpost as [| |s w name hs Hp Hio]; subst. subst name hs.
  pose proof (phase_sig_in _ _ _ _ _ _ Hp) as Hin.
  apply chunk_phase_frame in Hp as (_ & _ & Hsub & _).
  rewrite (upload_eq _ _ _ io2 f cs _ Hcs). simpl.
  rewrite bool_decide_eq_true_2 by done.
  split; [done |].
  destruct (io2 Manifests _) eqn:Eio2; simpl.
  - split; [done |]. split; [done |]. split; [|split; [by left | done]].
    exists cs. by rewrite !lookup_insert_eq.
  - unfold cut_manifest. destruct (leaves io2 Manifests _); simpl;
      (split; [done |]); (split; [done |]);
      (split; [|split; [by right | done]]);
      exists cs; by rewrite !lookup_insert_eq.
Qed.

(** C5.  When a chunk write fails the upload ends there: the file index,
    the signature index and the manifest directory are as before the
    request and the chunk directory has only grown.  A chunk that is absent
    and cannot be written makes the upload fail in this way, and a
    signature enters the index only with every chunk of the upload
    stored. *)
Theorem chunk_write_failure_aborts (st : state) (io : oracle) (f : file) :
  ∃ cs, chunkAndHash' (buffer f) = Some cs ∧
    (∀ st' k, upload' io (Some f) st = (st', Err (WriteFailed Chunks k)) →
       fileMeta st' = fileMeta st ∧ fileSignatures st' = fileSignatures st ∧
       manifestDir st' = manifestDir st ∧ chunksDir st ⊆ chunksDir st' ∧
       io Chunks k = false) ∧
    (Str.join "-" (hash <$> cs) ∉ fileSignatures st →
     (∃ c, c ∈ cs ∧ chunksDir st !! (hash c +:+ ".chunk") = None ∧
           io Chunks (hash c +:+ ".chunk") = false) →
     ∃ st' k, upload' io (Some f) st = (st', Err (WriteFailed Chunks k))) ∧
    (Str.join "-" (hash <$> cs) ∉ fileSignatures st →
     Str.join "-" (hash <$> cs) ∈ fileSignatures (upload' io (Some f) st).1 →
     ∀ c, c ∈ cs →
       is_Some (chunksDir (upload' io (Some f) st).1 !! (hash c +:+ ".chunk"))).
Proof.
  destruct (upload_cases sha256 chunk_size JSON_stringify chunk_size_pos io f st)
    as (cs & Hcs & _ & _ & _ & Hpost).
  exists cs. split; [done |]. split; [|split].
  - intros st' k E. rewrite E in Hpost. simpl in Hpost.
    inversion Hpost as [s e Hp| |]; subst.
    inversion Hp as [| |s e Hout Hfe]; subst.
    destruct Hfe as [H1 H2 H3 H4 _ (k' & [= <-] & Hk)]. done.
  - intros Hout (c & Hc & Habs & Hio).
    rewrite (upload_eq _ _ _ io f cs st Hcs). simpl.
    rewrite bool_decide_eq_false_2 by done.
    destruct (forEach_fails io cs false st c Hc Habs Hio) as (s & k & ->).
    by exists s, k.
  - intros Hout Hin c Hc.
    destruct (upload' io (Some f) st) as [st' out]. simpl in *.
    assert (∀ s w, chunk_phase io cs (Str.join "-" (hash <$> cs)) st s (Ok w) →
              is_Some (chunksDir s !! (hash c +:+ ".chunk"))) as Hall.
    { intros s w Hp. inversion Hp as [|s' w' _ Hfe|]; subst; [done |].
      destruct (fe_out _ _ _ _ _ _ Hfe) as (Ha & _). by apply Ha. }
    inversion Hpost as [s e Hp|s w name hs Hp Hio|s w name hs Hp Hio]; subst;
      rewrite ?cut_manifest_chunks, ?cut_manifest_sigs in *; simpl in *; eauto.
    inversion Hp as [| |s' e' _ Hfe]; subst.
    destruct Hfe as [_ H2 _ _ _ _]. congruence.
Qed.

(** C7 (as amended).  A request without a file is answered InvalidInput and
    changes nothing, and no request with a file is answered InvalidInput.
    An empty file is accepted: it has no chunk, its signature is the empty
    string, and once the manifest is saved the answer reports zero chunks,
    the file is indexed with an empty digest list and the empty signature
    is in the signature index. *)
Theorem empty_upload_accepted (st : state) (io : oracle) (name : string) :
  upload' io None st = (st, Err InvalidInput) ∧
  (∀ req_file, (upload' io req_file st).2 = Err InvalidInput ↔ req_file = None) ∧
  (upload' io (Some (File [] name)) st).2 ≠ Err InvalidInput ∧
  (io Manifests (safeName (or_unnamed name) +:+ ".json") = true →
   ∃ st', upload' io (Some (File [] name)) st =
            (st', Ok (Response false (safeName (or_unnamed name)) 0)) ∧
          fileMeta st' !! safeName (or_unnamed name) = Some (Meta "" []) ∧
          "" ∈ fileSignatures st' ∧
          manifestDir st' !! (safeName (or_unnamed name) +:+ ".json") =
            Some (JSON_stringify (Manifest (safeName (or_unnamed name)) "" [])) ∧
          chunksDir st' = chunksDir st).
Proof.
  split; [done |].
  assert (∀ f, (upload' io (Some f) st).2 ≠ Err InvalidInput) as Hfile.
  { intros f. destruct (chunkAndHash' (buffer f)) as [cs|] eqn:Hcs.
    - rewrite (upload_eq _ _ _ io f cs st Hcs). cbv zeta.
      destruct (bool_decide _).
      + by destruct (io Manifests _).
      + destruct (forEach_chunk io cs false st) as [s [w|e]] eqn:E.
        * by destruct (io Manifests _).
        * apply forEach_chunk_post in E.
          destruct (fe_out _ _ _ _ _ _ E) as (k & -> & _). done.
    - unfold upload. by rewrite Hcs. }
  split; [|split; [apply Hfile |]].
  { intros [f|]; [|done]. split; [|done]. intros H. by apply Hfile in H. }
  assert (chunkAndHash' (buffer (File [] name)) = Some []) as Hcs by done.
  rewrite (upload_eq _ _ _ io (File [] name) [] st Hcs). simpl.
  destruct (decide ("" ∈ fileSignatures st)) as [Hin|Hout].
  - rewrite bool_decide_eq_true_2 by done.
    destruct (io Manifests _); simpl; [|done].
    intros _. eexists. split; [done |]. simpl. by rewrite !lookup_insert_eq.
  - rewrite bool_decide_eq_false_2 by done. simpl.
    destruct (io Manifests _); simpl; [|done].
    intros _. eexists. split; [done |]. simpl. rewrite !lookup_insert_eq.
    split; [done |]. split; [|done]. apply elem_of_union. left.
    by apply elem_of_singleton.
Qed.
End Ingest.

(** ** Crash recovery and file names *)

Section Recovery.
Variable sha256 : list byte → list byte.
Variable chunk_size : nat.
Variable JSON_stringify : manifest → string.
Variable JSON_parse : string → option manifest.
Hypothesis chunk_size_pos : 0 < chunk_size.
Hypothesis JSON_roundtrip : ∀ m, JSON_parse (JSON_stringify m) = Some m.
Hypothesis JSON_prefix : ∀ m n, n < String.length (JSON_stringify m) →
  JSON_parse (Str.truncate n (JSON_stringify m)) = None.

Local Abbreviation upload' := (upload sha256 chunk_size JSON_stringify).
Local Abbreviation ingest' := (ingest sha256 chunk_size JSON_stringify).
Local Abbreviation restart' := (restart JSON_parse).
Local Abbreviation reachable' :=
  (reachable sha256 chunk_size JSON_stringify JSON_parse).

(** C3.  In a state reached by uploads whose manifest write did not fail,
    a restart rebuilds the same file index: the listed names and the
    outcome of every download are those of before; and it rebuilds the
    signature index as the signatures of the indexed files, all of which
    were in it before.  On any manifest directory made of saved manifests,
    files with another extension and records that do not parse, the
    rebuilt file index holds exactly the saved manifests and the rebuilt
    signature index exactly their signatures; a record that does not parse
    changes nothing. *)
Theorem crash_recovery_equivalence :
  (∀ st, reachable' commits st →
     list_filenames (restart' st) = list_filenames st ∧
     (∀ name, (download name (restart' st)).2 = (download name st).2) ∧
     (∀ s, s ∈ fileSignatures (restart' st) ↔
           ∃ n m, fileMeta st !! n = Some m ∧ signature m = s) ∧
     fileSignatures (restart' st) ⊆ fileSignatures st) ∧
  (∀ st, recoverable JSON_stringify JSON_parse (manifestDir st) →
     (∀ n v, fileMeta (restart' st) !! n = Some v ↔
             manifestDir st !! (n +:+ ".json") =
               Some (JSON_stringify (Manifest n (signature v) (chunkHashes v)))) ∧
     (∀ s, s ∈ fileSignatures (restart' st) ↔
           ∃ n hs, manifestDir st !! (n +:+ ".json") =
                     Some (JSON_stringify (Manifest n s hs)))) ∧
  (∀ k t st, JSON_parse t = None → bootstrap_file JSON_parse k t st = st).
Proof.
  split; [|split].
  - intros st Hreach.
    pose proof (names_commits sha256 chunk_size JSON_stringify JSON_parse
                  chunk_size_pos JSON_roundtrip _ Hreach) as Hn.
    pose proof (synced_reachable sha256 chunk_size JSON_stringify JSON_parse
                  chunk_size_pos JSON_roundtrip _ Hreach) as Hs.
    pose proof (restart_synced_index JSON_stringify JSON_parse JSON_roundtrip
                  st Hn Hs) as Hm.
    destruct (restart_post JSON_stringify JSON_parse JSON_roundtrip st)
      as [Hc _ _ _ _]. simpl in Hc.
    split; [|split; [|split]].
    + unfold list_filenames. by rewrite Hm.
    + intros name. rewrite !download_eq. simpl. unfold reconstruct.
      by rewrite Hm, Hc.
    + intros s. by apply (restart_sigs_indexed _ _ JSON_roundtrip).
    + intros s Hin.
      apply (restart_sigs_indexed _ _ JSON_roundtrip st s Hn Hs) in Hin
        as (n & m & Hnm & <-).
      eapply (indexed_sigs sha256 chunk_size JSON_stringify JSON_parse
                chunk_size_pos JSON_roundtrip); [exact Hreach | exact Hnm].
  - intros st Hrec. split.
    + intros n v. by apply restart_index.
    + intros s. by apply (restart_sigs_saved _ _ JSON_roundtrip).
  - intros k t st Hp. unfold bootstrap_file. rewrite Hp.
    by destruct (negb _).
Qed.

(** C9.  A download of a name behaves as the download of its basename.  A
    successful upload under a file name files the bytes under the basename
    of that name: the answer carries it, the file is listed under it and
    its manifest is saved under it.  No key of the file index of a
    reachable state contains a path separator. *)
Theorem basename_aliasing :
  (∀ st name, download name st = download (safeName name) st) ∧
  (∀ st io f B st' r, ingest' io f B st = (st', Ok r) →
     filename r = safeName f ∧
     filename r ∈ list_filenames st' ∧
     is_Some (manifestDir st' !! (safeName f +:+ ".json")) ∧
     list_filenames st' = {[safeName f]} ∪ list_filenames st) ∧
  (∀ P st, reachable' P st →
     ∀ n, n ∈ list_filenames st → ¬ Str.has_char Str.slash n).
Proof.
  split; [|split].
  - intros st name. rewrite !download_eq. unfold reconstruct, safeName.
    by rewrite StrFacts.basename_idemp.
  - intros st io f B st' r E. unfold ingest in E.
    destruct f as [|c f']; [discriminate |].
    change (multer_single (String c f') B)
      with (Some (File B (String c f'))) in E.
    destruct (upload_cases sha256 chunk_size JSON_stringify chunk_size_pos io
                (File B (String c f')) st) as (cs & _ & _ & _ & _ & Hpost).
    rewrite E in Hpost. simpl in Hpost.
    inversion Hpost as [| |s w name hs Hp Hio]; subst. subst name hs. simpl.
    apply chunk_phase_frame in Hp as (Hm & _).
    split; [done |]. unfold list_filenames. simpl. split; [|split].
    + apply elem_of_dom. by rewrite lookup_insert_eq.
    + by rewrite lookup_insert_eq.
    + by rewrite Hm, dom_insert_L.
  - intros P st Hreach n Hin. unfold list_filenames in Hin.
    apply elem_of_dom in Hin as [v Hv].
    pose proof (keys_reachable sha256 chunk_size JSON_stringify JSON_parse
                  chunk_size_pos JSON_roundtrip JSON_prefix _ _ Hreach) as Hn.
    by apply (index_keys _ _ Hn n v).
Qed.
End Recovery.

(** ** Chunk shape *)

Section Shape.
Variable sha256 : list byte → list byte.
Variable chunk_size : nat.
Variable JSON_stringify : manifest → string.

Local Abbreviation upload' := (upload sha256 chunk_size JSON_stringify).

(** C6.  For a chunk size [S > 0] and a buffer of [L > 0] bytes the chunker
    returns the ceiling of [L / S] chunks, in order and covering the
    buffer: chunk [i] is the slice starting at [i * S], it has [S] bytes
    unless it is the last one, which has the remaining [1..S] bytes, and
    its hash is the digest of its bytes.  The chunk count of the answer is
    the number of chunks and the signature stored is the digests joined by
    ['-'].  With [S = 10] and [L = 25]: three chunks of 10, 10 and 5 bytes,
    the signature [h1-h2-h3], and, when none of the chunks is stored yet
    and no write fails, the answer [{wroteSomething: true, chunkCount: 3}]. *)
Theorem chunking_shape (buf : list byte) :
  0 < chunk_size → 0 < length buf →
  ∃ cs, chunkAndHash sha256 chunk_size buf = Some cs ∧
    length cs = chunk_count chunk_size (length buf) ∧
    (length cs - 1) * chunk_size < length buf ≤ length cs * chunk_size ∧
    concat (data <$> cs) = buf ∧
    (∀ i c, cs !! i = Some c →
       hash c = digest sha256 (data c) ∧
       data c = slice buf (i * chunk_size) (i * chunk_size + chunk_size) ∧
       (S i < length cs → length (data c) = chunk_size) ∧
       (S i = length cs →
        length (data c) = length buf - i * chunk_size ∧
        1 ≤ length (data c) ≤ chunk_size)) ∧
    (∀ io name st st' r,
       upload' io (Some (File buf name)) st = (st', Ok r) →
       chunkCount r = length cs ∧
       fileMeta st' !! filename r =
         Some (Meta (Str.join "-" (hash <$> cs)) (hash <$> cs))) ∧
    (chunk_size = 10 → length buf = 25 →
     ∃ c1 c2 c3, cs = [c1; c2; c3] ∧
       length (data c1) = 10 ∧ length (data c2) = 10 ∧ length (data c3) = 5 ∧
       Str.join "-" (hash <$> cs) =
         hash c1 +:+ "-" +:+ hash c2 +:+ "-" +:+ hash c3 ∧
       ∀ (io : oracle) name st,
         (∀ d k, io d k = true) →
         Str.join "-" (hash <$> cs) ∉ fileSignatures st →
         (∀ c, c ∈ cs → chunksDir st !! (hash c +:+ ".chunk") = None) →
         (upload' io (Some (File buf name)) st).2 =
           Ok (Response true (safeName (or_unnamed name)) 3)).
Proof.
  intros Hpos Hlen.
  destruct (chunkAndHash_spec sha256 chunk_size Hpos buf) as (cs & Hcs & Hd & Hh & Hc).
  assert (length cs = chunk_count chunk_size (length buf)) as Hn.
  { rewrite <- (length_fmap data), Hd, length_fmap. apply length_seq. }
  assert (∀ i c, cs !! i = Some c →
            hash c = digest sha256 (data c) ∧ data c = piece chunk_size buf i ∧
            i < length cs) as Hi.
  { intros i c Hic. apply lookup_lt_Some in Hic as Hlt. split; [|split; [|done]].
    - rewrite <- list_fmap_compose in Hh.
      apply (fmap_eq_elem _ _ _ _ Hh). by eapply list_elem_of_lookup_2.
    - assert ((data <$> cs) !! i = Some (data c)) as Hdi
        by by rewrite list_lookup_fmap, Hic.
      rewrite Hd, list_lookup_fmap, lookup_seq_lt in Hdi by lia.
      by injection Hdi. }
  assert (∀ k, k * chunk_size < length buf ↔ k < length cs) as Hend.
  { intros k. rewrite Hn. by apply before_end. }
  assert ((length cs - 1) * chunk_size < length buf ≤ length cs * chunk_size) as Hb.
  { split.
    - apply Hend. destruct (length cs) eqn:El; [|lia].
      assert (0 * chunk_size < length buf) as H0 by lia. apply Hend in H0. lia.
    - rewrite Hn. by apply chunk_count_covers. }
  exists cs. do 4 (split; [done |]). split; [|split].
  - intros i c Hic. destruct (Hi i c Hic) as (Hhc & Hdc & Hlt).
    split; [done |]. split; [done |]. rewrite Hdc, length_piece by done.
    split.
    + intros Hnext. apply Hend in Hnext. lia.
    + intros Hlast. apply Hend in Hlt. lia.
  - intros io name st st' r E.
    rewrite (upload_eq _ _ _ io (File buf name) cs st Hcs) in E. simpl in E.
    destruct (bool_decide _); simpl in E.
    + destruct (io Manifests _); [|done]. injection E as <- <-. simpl.
      by rewrite length_fmap, lookup_insert_eq.
    + destruct (forEach_chunk io cs false st) as [s [w|e]]; [|done].
      destruct (io Manifests _); [|done]. injection E as <- <-. simpl.
      by rewrite length_fmap, lookup_insert_eq.
  - intros -> H25. rewrite H25 in Hn. vm_compute in Hn.
    destruct cs as [|c1 [|c2 [|c3 [|c4 cs]]]]; try discriminate.
    exists c1, c2, c3. split; [done |].
    destruct (Hi 0 c1 eq_refl) as (_ & -> & _).
    destruct (Hi 1 c2 eq_refl) as (_ & -> & _).
    destruct (Hi 2 c3 eq_refl) as (_ & -> & _).
    rewrite !length_piece, H25 by lia. do 4 (split; [done |]).
    intros io name st Hio Hout Habs.
    rewrite (upload_eq _ _ _ io (File buf name) _ st Hcs). cbv zeta.
    rewrite bool_decide_eq_false_2 by done.
    destruct (forEach_succeeds io [c1; c2; c3] false st (Hio Chunks)) as (s & w & E).
    rewrite E. apply forEach_chunk_post in E.
    destruct (fe_out _ _ _ _ _ _ E) as (Hall & Hw & _).
    rewrite Hio. simpl. destruct w; [done |]. exfalso.
    destruct (Hw eq_refl) as [_ Hsame].
    destruct (Hall c1) as [d Hd1]; [apply elem_of_cons; by left |].
    rewrite Hsame, Habs in Hd1; [done |]. apply elem_of_cons. by left.
Qed.

(** C8 (the code departs from its own comment).  The constant of the source
    is 100, not 1 MiB = 1024 * 1024: with it a buffer of 101 bytes is cut
    in two chunks. *)
Theorem chunk_size_constant :
  CHUNK_SIZE = 100 ∧ CHUNK_SIZE ≠ 1024 * 1024 ∧
  length <$> chunkAndHash sha256 CHUNK_SIZE (replicate 101 x00) = Some 2.
Proof.
  split; [done |]. split; [unfold CHUNK_SIZE; lia |].
  vm_compute. reflexivity.
Qed.
End Shape.

(** ** The theorems on concrete runs *)

Lemma toy_init_eq : Toy.init = State ∅ ∅ ∅ ∅.
Proof. apply init_eq. Qed.

Lemma ingest_idempotent_witness :
  (Toy.upload io_ok (Some (File Run.B1 "a.pdf")) Run.st1).2
    = Ok (Response false "a.pdf" 1) ∧
  chunksDir (Toy.upload io_ok (Some (File Run.B1 "a.pdf")) Run.st1).1
    = chunksDir Run.st1.
Proof.
  pose proof (ingest_idempotent Toy.sha256 CHUNK_SIZE Toy.stringify
                ToyFacts.chunk_size_pos Toy.init io_ok io_ok
                (File Run.B1 "a.pdf") Run.st1 (Response true "a.pdf" 1)
                ltac:(vm_compute; reflexivity)) as (_ & H1 & _ & _ & _ & H2).
  split; [apply H2; reflexivity | exact H1].
Defined.

Lemma chunk_write_failure_aborts_witness :
  (∃ k, (Toy.upload Run.io_no_chunks (Some (File Run.B1 "a.pdf")) Toy.init).2
          = Err (WriteFailed Chunks k)) ∧
  fileMeta (Toy.upload Run.io_no_chunks (Some (File Run.B1 "a.pdf")) Toy.init).1
    = fileMeta Toy.init ∧
  fileSignatures (Toy.upload Run.io_no_chunks (Some (File Run.B1 "a.pdf")) Toy.init).1
    = fileSignatures Toy.init ∧
  manifestDir (Toy.upload Run.io_no_chunks (Some (File Run.B1 "a.pdf")) Toy.init).1
    = manifestDir Toy.init.
Proof.
  destruct (chunk_write_failure_aborts Toy.sha256 CHUNK_SIZE Toy.stringify
              ToyFacts.chunk_size_pos Toy.init Run.io_no_chunks
              (File Run.B1 "a.pdf")) as (cs & Hcs & Hframe & Hfail & _).
  vm_compute in Hcs. injection Hcs as <-.
  destruct Hfail as (st' & k & E).
  { rewrite toy_init_eq. simpl. apply not_elem_of_empty. }
  { eexists. split; [apply list_elem_of_singleton; reflexivity |].
    rewrite toy_init_eq. simpl. split; [apply lookup_empty | reflexivity]. }
  destruct (Hframe st' k E) as (H1 & H2 & H3 & _).
  unfold Toy.upload. rewrite E. simpl. eauto.
Defined.

Lemma crash_recovery_equivalence_witness :
  list_filenames (Toy.restart Run.st2) = list_filenames Run.st2 ∧
  (download "a.pdf" (Toy.restart Run.st2)).2 = (download "a.pdf" Run.st2).2 ∧
  Cases.sig2 ∈ fileSignatures (Toy.restart Run.st2) ∧
  (Cases.sig1 ∈ fileSignatures (Toy.restart Run.st2) →
   ∃ n m, fileMeta Run.st2 !! n = Some m ∧ signature m = Cases.sig1).
Proof.
  destruct (crash_recovery_equivalence Toy.sha256 CHUNK_SIZE Toy.stringify
              Toy.parse ToyFacts.chunk_size_pos ToyFacts.parse_stringify)
    as (H & _ & _).
  destruct (H Run.st2) as (H1 & H2 & H3 & _).
  { unfold Run.st2, Run.st1, Toy.upload.
    apply reach_upload; [apply reach_upload; [apply reach_init |] |];
      intros f _; reflexivity. }
  split; [exact H1 |]. split; [apply H2 |]. split; [|apply H3].
  apply H3. exists "a.pdf", (Meta Cases.sig2 [Cases.sig2]).
  split; [vm_compute |]; reflexivity.
Defined.

Lemma basename_aliasing_witness :
  download "x/a.pdf" Run.st1 = download "a.pdf" Run.st1 ∧
  list_filenames (Toy.ingest io_ok "x/b.pdf" Run.B2 Run.st1).1
    = {["b.pdf"]} ∪ list_filenames Run.st1 ∧
  (∀ n, n ∈ list_filenames Cases.st_cut_manifest → ¬ Str.has_char Str.slash n).
Proof.
  destruct (basename_aliasing Toy.sha256 CHUNK_SIZE Toy.stringify
              Toy.parse ToyFacts.chunk_size_pos ToyFacts.parse_stringify
              ToyFacts.parse_truncated)
    as (H1 & H2 & H3).
  split; [exact (H1 Run.st1 "x/a.pdf") |]. split.
  - destruct (H2 Run.st1 io_ok "x/b.pdf" Run.B2
                (Toy.ingest io_ok "x/b.pdf" Run.B2 Run.st1).1
                (Response true "b.pdf" 1)) as (_ & _ & _ & H).
    + vm_compute. reflexivity.
    + exact H.
  - apply (H3 (λ _ _, True)).
    unfold Cases.st_cut_manifest, Run.st1, Toy.upload.
    apply reach_restart.
    apply reach_upload; [apply reach_upload; [apply reach_init |] |]; exact I.
Defined.

Lemma chunking_shape_witness :
  (upload Toy.sha256 10 Toy.stringify io_ok (Some (File Run.B25 "f.bin")) Toy.init).2
    = Ok (Response true "f.bin" 3).
Proof.
  destruct (chunking_shape Toy.sha256 10 Toy.stringify Run.B25
              ltac:(lia) ltac:(vm_compute; lia))
    as (cs & _ & _ & _ & _ & _ & _ & Hscenario).
  destruct (Hscenario eq_refl eq_refl) as (c1 & c2 & c3 & _ & _ & _ & _ & _ & Hup).
  apply (Hup io_ok "f.bin" Toy.init).
  - reflexivity.
  - rewrite toy_init_eq. simpl. apply not_elem_of_empty.
  - intros c _. rewrite toy_init_eq. simpl. apply lookup_empty.
Defined.

(** The literal reading of C7 fails: an empty file is accepted, indexed and
    its (empty) signature recorded. *)
Lemma empty_upload_counterexample :
  (Toy.upload io_ok (Some (File [] "a.txt")) Toy.init).2
    = Ok (Response false "a.txt" 0) ∧
  fileMeta (Toy.upload io_ok (Some (File [] "a.txt")) Toy.init).1 !! "a.txt"
    = Some (Meta "" []) ∧
  fileMeta Toy.init !! "a.txt" = None ∧
  is_Some (manifestDir (Toy.upload io_ok (Some (File [] "a.txt")) Toy.init).1
             !! "a.txt.json").
Proof.
  split; [vm_compute; reflexivity |]. split; [vm_compute; reflexivity |].
  split; [vm_compute; reflexivity |]. vm_compute. eexists. reflexivity.
Qed.

(** * Further properties of the handlers *)

(** ** What an upload touches *)

Lemma forEach_all_present (io : oracle) (cs : list chunk) (w : bool) (st : state) :
  (∀ c, c ∈ cs → is_Some (chunksDir st !! (hash c +:+ ".chunk"))) →
  forEach_chunk io cs w st = (st, Ok w).
Proof.
  induction cs as [|c cs IH]; intros Hall; simpl; [done |].
  unfold bind. rewrite write_new_chunk_eq.
  destruct (Hall c) as [d ->]; [apply elem_of_cons; by left |].
  apply IH. intros c' Hc'. apply Hall. apply elem_of_cons. by right.
Qed.

Lemma phase_new_blobs (io : oracle) (cs : list chunk) (sig : string)
    (st s : state) (out : outcome bool) :
  chunk_phase io cs sig st s out →
  ∀ k d, chunksDir s !! k = Some d →
    chunksDir st !! k = Some d ∨
    ∃ c, c ∈ cs ∧ k = hash c +:+ ".chunk" ∧
         (d = data c ∨
          ∃ n, d = take n (data c) ∧ out = Err (WriteFailed Chunks k)).
Proof.
  intros [Hin|s' w Hout Hfe|s' e Hout Hfe] k d Hk; [by left | |];
    (destruct (fe_new _ _ _ _ _ _ Hfe k d Hk)
       as [? | (c & ? & ? & [? | (n & _ & _ & ? & ?)])];
     [by left | right; exists c; eauto | right; exists c; eauto 6]).
Qed.

Section UploadFrame.
Variable sha256 : list byte → list byte.
Variable chunk_size : nat.
Variable JSON_stringify : manifest → string.
Hypothesis chunk_size_pos : 0 < chunk_size.

Local Abbreviation upload' := (upload sha256 chunk_size JSON_stringify).
Local Abbreviation chunkAndHash' := (chunkAndHash sha256 chunk_size).

Lemma upload_touches (io : oracle) (f : file) (st : state) :
  chunksDir st ⊆ chunksDir (upload' io (Some f) st).1 ∧
  (∀ n, n ≠ upload_key f →
        fileMeta (upload' io (Some f) st).1 !! n = fileMeta st !! n) ∧
  (∀ k, k ≠ upload_key f +:+ ".json" →
        manifestDir (upload' io (Some f) st).1 !! k = manifestDir st !! k) ∧
  fileSignatures st ⊆ fileSignatures (upload' io (Some f) st).1.
Proof.
  destruct (upload_cases sha256 chunk_size JSON_stringify chunk_size_pos io f st)
    as (cs & _ & _ & _ & _ & Hpost).
  destruct (upload' io (Some f) st) as [st' out]. simpl in *. unfold upload_key.
  destruct Hpost as [s e Hp|s w name hs Hp Hio|s w name hs Hp Hio];
    [| unfold cut_manifest; destruct (leaves io Manifests _) as [cut|] |];
    apply chunk_phase_frame in Hp as (Hm & Hd & Hsub & Hsig); simpl;
    rewrite ?Hm, ?Hd; (split; [done |]);
    (split; [intros n Hn; by rewrite ?lookup_insert_ne |]);
    (split; [intros k Hk; by rewrite ?lookup_insert_ne |]);
    destruct Hsig as [-> | [-> _]]; set_solver.
Qed.

(** X1.  An upload, whatever its outcome, changes no index entry and no
    manifest file other than its own, removes no signature and adds at
    most the signature of the uploaded bytes, and leaves every stored blob
    as it is; a request without a file changes nothing. *)
Theorem upload_frame (io : oracle) (req_file : option file) (st : state) :
  chunksDir st ⊆ chunksDir (upload' io req_file st).1 ∧
  fileSignatures st ⊆ fileSignatures (upload' io req_file st).1 ∧
  (∀ n, (∀ f, req_file = Some f → n ≠ upload_key f) →
        fileMeta (upload' io req_file st).1 !! n = fileMeta st !! n) ∧
  (∀ k, (∀ f, req_file = Some f → k ≠ upload_key f +:+ ".json") →
        manifestDir (upload' io req_file st).1 !! k = manifestDir st !! k) ∧
  (∀ s, s ∈ fileSignatures (upload' io req_file st).1 →
        s ∈ fileSignatures st ∨
        ∃ f cs, req_file = Some f ∧ chunkAndHash' (buffer f) = Some cs ∧
                s = Str.join "-" (hash <$> cs)) ∧
  (req_file = None → (upload' io req_file st).1 = st).
Proof.
  destruct req_file as [f|];
    [|simpl; do 4 (split; [done |]); split; [by left | done]].
  destruct (upload_touches io f st) as (H1 & H2 & H3 & H4).
  split; [done |]. split; [done |]. split; [by eauto |]. split; [by eauto |].
  split; [|done].
  destruct (upload_cases sha256 chunk_size JSON_stringify chunk_size_pos io f st)
    as (cs & Hcs & _ & _ & _ & Hpost).
  destruct (upload' io (Some f) st) as [st' out]. simpl in *.
  intros s Hs.
  assert (s ∈ fileSignatures st ∨ s = Str.join "-" (hash <$> cs)) as [? | ->];
    [|by left | right; by exists f, cs].
  destruct Hpost as [s0 e Hp|s0 w name hs Hp Hio|s0 w name hs Hp Hio];
    rewrite ?cut_manifest_sigs in Hs;
    apply chunk_phase_frame in Hp as (_ & _ & _ & Hsig); simpl in Hs;
    (destruct Hsig as [Hsig | [Hsig _]]; rewrite Hsig in Hs; [by left |]);
    (apply elem_of_union in Hs as [Hs%elem_of_singleton | Hs];
       [by right | by left]).
Qed.

(** X2.  A download that succeeds keeps returning the same bytes after any
    upload filed under another key, whatever the outcome of that upload. *)
Theorem upload_keeps_downloads (io : oracle) (req_file : option file)
    (st : state) (name : string) (out : list byte) :
  (download name st).2 = Ok out →
  (∀ f, req_file = Some f → upload_key f ≠ safeName name) →
  (download name (upload' io req_file st).1).2 = Ok out.
Proof.
  intros Hd Hkey. destruct req_file as [f|]; [|done].
  destruct (upload_touches io f st) as (Hsub & Hm & _ & _).
  rewrite download_eq in *. simpl in *. unfold reconstruct in *.
  rewrite Hm by (intros E; by apply (Hkey f eq_refl)).
  destruct (fileMeta st !! safeName name) as [m|]; [|done].
  destruct (mapM _ (chunkHashes m)) as [bs|] eqn:Ebs; [|done].
  apply mapM_Some_1 in Ebs.
  rewrite (mapM_Some_2 _ _ bs); [done |].
  eapply Forall2_impl; [exact Ebs |]. intros h b Hb. simpl in *.
  eapply lookup_weaken; [exact Hb | exact Hsub].
Qed.

(** X3.  The list of file names never shrinks under an upload and grows by
    at most the key of the upload; after a successful upload it is the old
    list plus the file name of the answer, and after an upload that failed
    on a chunk write it is the old list. *)
Theorem list_after_upload (io : oracle) (f : file) (st : state) :
  list_filenames st ⊆ list_filenames (upload' io (Some f) st).1 ∧
  list_filenames (upload' io (Some f) st).1 ⊆ {[upload_key f]} ∪ list_filenames st ∧
  (∀ r, (upload' io (Some f) st).2 = Ok r →
        list_filenames (upload' io (Some f) st).1 =
          {[filename r]} ∪ list_filenames st) ∧
  (∀ k, (upload' io (Some f) st).2 = Err (WriteFailed Chunks k) →
        list_filenames (upload' io (Some f) st).1 = list_filenames st).
Proof.
  destruct (upload_cases sha256 chunk_size JSON_stringify chunk_size_pos io f st)
    as (cs & _ & _ & _ & _ & Hpost).
  destruct (upload' io (Some f) st) as [st' out]. simpl in *.
  unfold list_filenames, upload_key.
  destruct Hpost as [s e Hp|s w name hs Hp Hio|s w name hs Hp Hio].
  - inversion Hp as [| |s' e' Hout Hfe]; subst.
    destruct Hfe as [Hm _ _ _ _ (k' & -> & _)]. rewrite Hm.
    split; [done |]. split; [set_solver |]. split; [done |]. done.
  - apply chunk_phase_frame in Hp as (Hm & _). rewrite cut_manifest_meta.
    simpl. rewrite Hm, dom_insert_L.
    split; [set_solver |]. split; [done |]. split; [done |]. done.
  - apply chunk_phase_frame in Hp as (Hm & _). simpl. rewrite Hm, dom_insert_L.
    split; [set_solver |]. split; [done |]. split; [|done].
    by intros r [= <-].
Qed.

(** X4.  When every chunk of the uploaded bytes already has its file, the
    upload writes no chunk, cannot fail on a chunk write and, once its
    manifest is saved, answers that no chunk was written: whether or not
    the signature of the bytes is in the signature index. *)
Theorem upload_existing_chunks (io : oracle) (f : file) (st : state) :
  ∃ cs, chunkAndHash' (buffer f) = Some cs ∧
    ((∀ c, c ∈ cs → is_Some (chunksDir st !! chunk_file c)) →
     chunksDir (upload' io (Some f) st).1 = chunksDir st ∧
     ((upload' io (Some f) st).2 = Ok (Response false (upload_key f) (length cs)) ∨
      (upload' io (Some f) st).2 =
        Err (WriteFailed Manifests (upload_key f +:+ ".json")))).
Proof.
  destruct (chunkAndHash_spec sha256 chunk_size chunk_size_pos (buffer f))
    as (cs & Hcs & _).
  exists cs. split; [done |]. intros Hall.
  rewrite (upload_eq _ _ _ io f cs st Hcs). cbv zeta.
  rewrite (forEach_all_present io cs false st Hall).
  unfold upload_key. rewrite length_fmap.
  destruct (bool_decide _); destruct (io Manifests _);
    simpl; rewrite ?cut_manifest_chunks; simpl; auto.
Qed.

(** X5.  Every file an upload adds to the chunk directory has the name
    made of the hash of one of its chunks and holds the bytes of that
    chunk; only the file of the chunk write whose failure the upload
    reports may hold less, a prefix of them.  The answer says that chunks
    were written exactly when the chunk directory has changed. *)
Theorem upload_new_blobs (io : oracle) (f : file) (st : state) :
  ∃ cs, chunkAndHash' (buffer f) = Some cs ∧
    (∀ k d, chunksDir (upload' io (Some f) st).1 !! k = Some d →
       chunksDir st !! k = Some d ∨
       ∃ c, c ∈ cs ∧ k = chunk_file c ∧
            (d = data c ∨
             ∃ n, d = take n (data c) ∧
                  (upload' io (Some f) st).2 = Err (WriteFailed Chunks k))) ∧
    (∀ r, (upload' io (Some f) st).2 = Ok r →
       (wroteSomething r = true ↔
        chunksDir (upload' io (Some f) st).1 ≠ chunksDir st)).
Proof.
  destruct (upload_cases sha256 chunk_size JSON_stringify chunk_size_pos io f st)
    as (cs & Hcs & _ & _ & _ & Hpost).
  exists cs. split; [done |].
  destruct (upload' io (Some f) st) as [st' out]. simpl in *.
  assert (∀ s w, chunk_phase io cs (Str.join "-" (hash <$> cs)) st s (Ok w) →
            ∀ k d, chunksDir s !! k = Some d →
              chunksDir st !! k = Some d ∨
              ∃ c, c ∈ cs ∧ k = chunk_file c ∧ d = data c) as Hexact.
  { intros s w Hp k d Hk.
    destruct (phase_new_blobs _ _ _ _ _ _ Hp k d Hk)
      as [? | (c & ? & ? & [? | (n & _ & ?)])]; [by left | | done].
    right. by exists c. }
  destruct Hpost as [s e Hp|s w name hs Hp Hio|s w name hs Hp Hio];
    rewrite ?cut_manifest_chunks; simpl.
  - split; [|done]. intros k d Hk.
    destruct (phase_new_blobs _ _ _ _ _ _ Hp k d Hk)
      as [? | (c & ? & ? & [? | (n & ? & [= ->])])]; [by left | |];
      right; exists c; eauto 7.
  - split; [|done]. intros k d Hk.
    destruct (Hexact _ _ Hp k d Hk) as [? | (c & ? & ? & ?)]; [by left |].
    right. exists c. eauto.
  - split.
    { intros k d Hk.
      destruct (Hexact _ _ Hp k d Hk) as [? | (c & ? & ? & ?)]; [by left |].
      right. exists c. eauto. }
    intros r [= <-]. simpl. destruct (phase_wrote _ _ _ _ _ _ Hp) as [Ha Hb].
    destruct w; split; try done.
    + intros _ E. by specialize (Hb E).
    + intros Hne. by destruct Hne; apply Ha.
Qed.

(** X6.  When the signature of the uploaded bytes is already in the
    signature index the upload touches no chunk file, even if a chunk of
    these bytes has no file: with its manifest saved the upload succeeds
    and answers that no chunk was written, and the download of the file it
    has just indexed fails with CorruptStore. *)
Theorem known_signature_skips_repair (io : oracle) (f : file) (st : state) :
  ∃ cs, chunkAndHash' (buffer f) = Some cs ∧
    (Str.join "-" (hash <$> cs) ∈ fileSignatures st →
     chunksDir (upload' io (Some f) st).1 = chunksDir st ∧
     (io Manifests (upload_key f +:+ ".json") = true →
      (upload' io (Some f) st).2 =
        Ok (Response false (upload_key f) (length cs)) ∧
      ((∃ c, c ∈ cs ∧ chunksDir st !! chunk_file c = None) →
       (download (upload_key f) (upload' io (Some f) st).1).2
         = Err CorruptStore))).
Proof.
  destruct (chunkAndHash_spec sha256 chunk_size chunk_size_pos (buffer f))
    as (cs & Hcs & _).
  exists cs. split; [done |]. intros Hin.
  rewrite (upload_eq _ _ _ io f cs st Hcs). cbv zeta.
  rewrite bool_decide_eq_true_2 by done. unfold upload_key.
  destruct (io Manifests _); [|simpl; by rewrite cut_manifest_chunks].
  simpl. split; [done |]. intros _. rewrite length_fmap. split; [done |].
  intros (c & Hc & Hmiss).
  rewrite download_eq. simpl. unfold reconstruct, safeName.
  rewrite StrFacts.basename_idemp. simpl.
  rewrite lookup_insert_eq. simpl.
  rewrite (mapM_None_2 _ (hash <$> cs)); [done |].
  apply Exists_exists. exists (hash c). split; [|done].
  apply list_elem_of_fmap. by exists c.
Qed.
End UploadFrame.

(** ** Restart, manifests and the signature index *)

Section RestartFacts.
Variable sha256 : list byte → list byte.
Variable chunk_size : nat.
Variable JSON_stringify : manifest → string.
Variable JSON_parse : string → option manifest.
Hypothesis chunk_size_pos : 0 < chunk_size.
Hypothesis JSON_roundtrip : ∀ m, JSON_parse (JSON_stringify m) = Some m.

Local Abbreviation upload' := (upload sha256 chunk_size JSON_stringify).
Local Abbreviation restart' := (restart JSON_parse).
Local Abbreviation recoverable' := (recoverable JSON_stringify JSON_parse).
Local Abbreviation reachable' :=
  (reachable sha256 chunk_size JSON_stringify JSON_parse).

(** X7.  A restart reads only the two directories and leaves them as they
    are, so a second restart rebuilds the same state as the first. *)
Theorem restart_idempotent (st : state) :
  chunksDir (restart' st) = chunksDir st ∧
  manifestDir (restart' st) = manifestDir st ∧
  restart' (restart' st) = restart' st.
Proof.
  destruct (restart_post JSON_stringify JSON_parse JSON_roundtrip st)
    as [Hc Hm _ _ _]. simpl in *.
  split; [done |]. split; [done |].
  unfold restart at 1. by rewrite Hc, Hm.
Qed.

(** X8.  What [saveManifest] writes is what [bootstrap] reads back: after a
    manifest is saved for a name, a restart indexes that name with the
    saved signature and digest list, has the signature in the signature
    index, and rebuilds every other name as it would have without the
    save. *)
Theorem saved_manifest_recovered (io : oracle) (name sig : string)
    (hs : list string) (st : state) :
  recoverable' (manifestDir st) →
  io Manifests (name +:+ ".json") = true →
  fileMeta (restart' (saveManifest JSON_stringify io name sig hs st).1) !! name
    = Some (Meta sig hs) ∧
  sig ∈ fileSignatures (restart' (saveManifest JSON_stringify io name sig hs st).1) ∧
  (∀ n, n ≠ name →
     fileMeta (restart' (saveManifest JSON_stringify io name sig hs st).1) !! n
       = fileMeta (restart' st) !! n).
Proof.
  intros Hrec Hio. unfold saveManifest, writeManifestSync. rewrite Hio. simpl.
  set (st' := State _ _ _ _).
  assert (recoverable' (manifestDir st')) as Hrec'.
  { intros k t. simpl. rewrite lookup_insert. case_decide as Ek; [|by apply Hrec].
    intros [= <-]. right. right. by exists (Manifest name sig hs). }
  split; [|split].
  - apply (restart_index _ _ JSON_roundtrip st' name (Meta sig hs) Hrec').
    simpl. by rewrite lookup_insert_eq.
  - destruct (restart_post JSON_stringify JSON_parse JSON_roundtrip st')
      as [_ _ Hs _ _]. apply Hs. right. exists (Manifest name sig hs).
    split; [|done]. exists (name +:+ ".json"), (JSON_stringify (Manifest name sig hs)).
    simpl. rewrite lookup_insert_eq, StrFacts.endsWith_append. auto.
  - intros n Hn. apply option_eq. intros v.
    rewrite (restart_index _ _ JSON_roundtrip st' n v Hrec'),
            (restart_index _ _ JSON_roundtrip st n v Hrec).
    simpl. rewrite lookup_insert_ne; [done |].
    intros E. apply StrFacts.append_inj_r in E. congruence.
Qed.

(** X9.  On a manifest directory made of saved manifests, files with another
    extension and records that do not parse, a restart puts in the
    signature index exactly the signatures of the saved manifests. *)
Theorem rebuilt_signatures (st : state) (s : string) :
  recoverable' (manifestDir st) →
  s ∈ fileSignatures (restart' st) ↔
  ∃ n hs, manifestDir st !! (n +:+ ".json") =
            Some (JSON_stringify (Manifest n s hs)).
Proof. by apply restart_sigs_saved. Qed.

(** X10.  In every reachable state the signature of every indexed file is
    in the signature index. *)
Theorem indexed_signature_known (P : oracle → option file → Prop) (st : state) :
  reachable' P st →
  ∀ n m, fileMeta st !! n = Some m → signature m ∈ fileSignatures st.
Proof. by apply indexed_sigs. Qed.

(** X11.  In a state reached by uploads whose manifest write did not fail,
    a restart leaves in the signature index exactly the signatures of the
    files currently indexed: the signature of a version that was
    overwritten is forgotten. *)
Theorem restart_signatures_current (st : state) (s : string) :
  reachable' commits st →
  s ∈ fileSignatures (restart' st) ↔
  ∃ n m, fileMeta st !! n = Some m ∧ signature m = s.
Proof.
  intros Hreach.
  pose proof (names_commits sha256 chunk_size JSON_stringify JSON_parse
                chunk_size_pos JSON_roundtrip _ Hreach) as Hn.
  pose proof (synced_reachable sha256 chunk_size JSON_stringify JSON_parse
                chunk_size_pos JSON_roundtrip _ Hreach) as Hsync.
  by apply (restart_sigs_indexed _ _ JSON_roundtrip).
Qed.


(** X13.  No sequence of uploads, downloads, listings and restarts removes
    or changes a stored chunk. *)
Theorem chunks_never_lost (rs : list request) (st : state) :
  chunksDir st ⊆
    chunksDir (run sha256 chunk_size JSON_stringify JSON_parse rs st).
Proof.
  revert st. induction rs as [|r rs IH]; intros st; [done |].
  simpl. etrans; [|apply IH].
  destruct r as [io [f|]|name| |]; simpl; try done.
  - by destruct (upload_touches sha256 chunk_size JSON_stringify
                   chunk_size_pos io f st) as (H & _).
  - by rewrite download_eq.
  - destruct (restart_post JSON_stringify JSON_parse JSON_roundtrip st)
      as [Hc _ _ _ _]. simpl in Hc. by rewrite Hc.
Qed.
End RestartFacts.

(** ** The chunker and the sanitiser *)

Lemma chunk_loop_zero (sha256 : list byte → list byte) (buf : list byte)
    (fuel off : nat) :
  off < length buf → chunk_loop sha256 0 fuel off buf = None.
Proof.
  intros Hoff. induction fuel as [|fuel IH]; simpl;
    destruct (Nat.ltb_spec off (length buf)); try lia; [done |].
  by rewrite Nat.add_0_r, IH.
Qed.

(** X14.  With a chunk size of 0 the loop of [chunkAndHash] never exits on
    a non-empty buffer: no amount of fuel yields a result.  With a positive
    chunk size it exits within as many iterations as the buffer has bytes,
    and more fuel gives the same chunks.  An empty buffer has no chunk,
    whatever the chunk size. *)
Theorem chunker_termination (sha256 : list byte → list byte) (chunk_size : nat)
    (buf : list byte) :
  (chunk_size = 0 → buf ≠ [] →
   ∀ fuel, chunk_loop sha256 chunk_size fuel 0 buf = None) ∧
  (0 < chunk_size →
   is_Some (chunkAndHash sha256 chunk_size buf) ∧
   ∀ fuel, length buf ≤ fuel →
     chunk_loop sha256 chunk_size fuel 0 buf = chunkAndHash sha256 chunk_size buf) ∧
  chunkAndHash sha256 chunk_size [] = Some [].
Proof.
  split; [|split; [|done]].
  - intros -> Hne fuel. apply chunk_loop_zero. destruct buf; [done | simpl; lia].
  - intros Hpos. rewrite (chunkAndHash_pieces sha256 chunk_size Hpos).
    split; [by eexists |]. intros fuel Hfuel.
    pose proof (chunk_loop_pieces sha256 chunk_size Hpos buf fuel 0) as H.
    simpl in H. rewrite Nat.sub_0_r in H. apply H. lia.
Qed.

Lemma piece_of_prefix (chunk_size : nat) (buf : list byte) (i k : nat) :
  i < k →
  piece chunk_size buf i = piece chunk_size (take (k * chunk_size) buf) i.
Proof.
  intros Hik. unfold piece, slice.
  replace (i * chunk_size + chunk_size - i * chunk_size) with chunk_size by lia.
  rewrite !take_drop_commute, take_take. do 2 f_equal. nia.
Qed.

(** X15.  Chunk boundaries are positional: two buffers that agree on their
    first [k] times chunk-size bytes have the same first [k] chunks, hashes
    included. *)
Theorem shared_prefix_chunks (sha256 : list byte → list byte) (chunk_size : nat)
    (buf1 buf2 : list byte) (k : nat) (cs1 cs2 : list chunk) :
  0 < chunk_size →
  k * chunk_size ≤ length buf1 → k * chunk_size ≤ length buf2 →
  take (k * chunk_size) buf1 = take (k * chunk_size) buf2 →
  chunkAndHash sha256 chunk_size buf1 = Some cs1 →
  chunkAndHash sha256 chunk_size buf2 = Some cs2 →
  take k cs1 = take k cs2 ∧ length (take k cs1) = k.
Proof.
  intros Hpos H1 H2 Hpre E1 E2.
  rewrite (chunkAndHash_pieces sha256 chunk_size Hpos) in E1, E2.
  injection E1 as <-. injection E2 as <-.
  assert (∀ buf : list byte, k * chunk_size ≤ length buf →
            k `min` chunk_count chunk_size (length buf) = k) as Hk.
  { intros buf Hb. destruct k as [|k]; [done |].
    assert (k * chunk_size < length buf) as Hlt by lia.
    apply (before_end chunk_size Hpos) in Hlt. lia. }
  rewrite <- !fmap_take, !take_seq, (Hk buf1 H1), (Hk buf2 H2).
  split; [|by rewrite length_fmap, length_seq].
  apply list_fmap_ext. intros j i Hi.
  apply list_elem_of_lookup_2, elem_of_seq in Hi.
  rewrite (piece_of_prefix chunk_size buf1 i k) by lia.
  rewrite (piece_of_prefix chunk_size buf2 i k) by lia.
  by rewrite Hpre.
Qed.

Lemma upto_slash_app (r rest : list ascii) :
  Str.slash ∉ r → Str.upto_slash (r ++ Str.slash :: rest) = r.
Proof.
  induction r as [|c r IH]; simpl.
  - done.
  - rewrite not_elem_of_cons. intros [Hc Hr].
    destruct (Ascii.eqb_spec c Str.slash) as [->|_]; [done | by rewrite IH].
Qed.

(** X16.  [safeName] returns the last component of a path: the part after
    the last separator when that part is not empty, with any trailing
    separator ignored; a name without separator is returned as it is. *)
Theorem safeName_last_component :
  (∀ d n, n ≠ "" → ¬ Str.has_char Str.slash n →
          safeName (d +:+ "/" +:+ n) = n) ∧
  (∀ p, safeName (p +:+ "/") = safeName p) ∧
  (∀ n, ¬ Str.has_char Str.slash n → safeName n = n).
Proof.
  split; [|split].
  - intros d n Hne Hn. unfold safeName, Str.basename, Str.has_char in *.
    rewrite !StrFacts.chars_append, !reverse_app. simpl.
    assert (Str.slash ∉ reverse (Str.chars n)) as Hr by by rewrite elem_of_reverse.
    destruct (reverse (Str.chars n)) as [|c r] eqn:Er.
    { apply (f_equal reverse) in Er. rewrite reverse_involutive in Er.
      exfalso. apply Hne. by apply StrFacts.chars_inj. }
    change (reverse [ "/"%char ]) with [Str.slash].
    rewrite <- app_assoc. simpl.
    apply not_elem_of_cons in Hr as Hr'. destruct Hr' as [Hc _].
    destruct (Ascii.eqb_spec c Str.slash) as [->|_]; [done |].
    change (c :: r ++ Str.slash :: reverse (Str.chars d))
      with ((c :: r) ++ Str.slash :: reverse (Str.chars d)).
    rewrite upto_slash_app by done.
    rewrite <- Er, reverse_involutive. apply string_of_list_ascii_of_string.
  - intros p. unfold safeName, Str.basename.
    by rewrite StrFacts.chars_append, reverse_app.
  - intros n. apply StrFacts.basename_id.
Qed.

(** ** Consistency of the store *)

Lemma reconstruct_safeName (st : state) (N : string) :
  reconstruct st (safeName N) = reconstruct st N.
Proof. unfold reconstruct, safeName. by rewrite StrFacts.basename_idemp. Qed.

Section StoreConsistency.
Variable sha256 : list byte → list byte.
Variable chunk_size : nat.
Variable JSON_stringify : manifest → string.
Variable JSON_parse : string → option manifest.
Variable U : list byte → Prop.
Hypothesis chunk_size_pos : 0 < chunk_size.
Hypothesis sha256_length : ∀ d, length (sha256 d) = 32.
Hypothesis JSON_roundtrip : ∀ m, JSON_parse (JSON_stringify m) = Some m.
Hypothesis JSON_prefix : ∀ m n, n < String.length (JSON_stringify m) →
  JSON_parse (Str.truncate n (JSON_stringify m)) = None.
Hypothesis U_collision_free : collision_free sha256 U.

Local Abbreviation upload' := (upload sha256 chunk_size JSON_stringify).
Local Abbreviation ingest' := (ingest sha256 chunk_size JSON_stringify).
Local Abbreviation within' := (within sha256 chunk_size U).
Local Abbreviation reachable' :=
  (reachable sha256 chunk_size JSON_stringify JSON_parse
     (orderly sha256 chunk_size U)).

(** X17.  The same bytes under two names are stored once: in a state
    reached by uploads whose failed chunk writes left no file, after a
    successful upload of [B] a successful upload of [B] under any name
    writes no chunk and reports so, and each of the two names whose
    basename is accepted as a header value then downloads as [B]. *)
Theorem same_bytes_two_names (st : state) (io1 io2 : oracle) (N1 N2 : string)
    (B : list byte) (st1 st2 : state) (r1 r2 : response) :
  reachable' st → within' (multer_single N1 B) →
  ingest' io1 N1 B st = (st1, Ok r1) →
  ingest' io2 N2 B st1 = (st2, Ok r2) →
  wroteSomething r2 = false ∧ chunksDir st2 = chunksDir st1 ∧
  (header_ok (safeName N1) = true → download N1 st2 = (st2, Ok B)) ∧
  (header_ok (safeName N2) = true → download N2 st2 = (st2, Ok B)).
Proof.
  intros Hreach Hw E1 E2. unfold ingest in E1, E2.
  destruct N1 as [|c1 N1']; [discriminate |].
  destruct N2 as [|c2 N2']; [discriminate |].
  set (N1 := String c1 N1') in *. set (N2 := String c2 N2') in *.
  change (multer_single N1 B) with (Some (File B N1)) in E1, Hw.
  change (multer_single N2 B) with (Some (File B N2)) in E2.
  pose proof (store_reachable sha256 chunk_size JSON_stringify JSON_parse U
                chunk_size_pos sha256_length JSON_roundtrip JSON_prefix
                U_collision_free st Hreach) as Hinv.
  pose proof (store_upload sha256 chunk_size JSON_stringify JSON_parse U
                chunk_size_pos sha256_length JSON_roundtrip JSON_prefix
                U_collision_free io1 (Some (File B N1)) st) as Hinv1.
  rewrite E1 in Hinv1. simpl in Hinv1.
  specialize (Hinv1 (or_intror (ex_intro _ r1 eq_refl)) Hinv Hw).
  assert (within' (Some (File B N2))) as Hw2.
  { intros f cs [= <-] Hcs. exact (Hw (File B N1) cs eq_refl Hcs). }
  destruct (saved_reconstruct sha256 chunk_size JSON_stringify JSON_parse U
              chunk_size_pos sha256_length U_collision_free
              _ _ _ _ _ Hinv Hw E1) as [Hn1 Hrec1].
  destruct (saved_reconstruct sha256 chunk_size JSON_stringify JSON_parse U
              chunk_size_pos sha256_length U_collision_free
              _ _ _ _ _ Hinv1 Hw2 E2) as [Hn2 Hrec2].
  destruct (upload_cases sha256 chunk_size JSON_stringify chunk_size_pos
              io1 (File B N1) st) as (cs & Hcs & _ & _ & _ & Hpost).
  rewrite E1 in Hpost. simpl in Hpost.
  inversion Hpost as [| |s w name hs Hp Hio]; subst. subst name hs.
  pose proof (phase_sig_in _ _ _ _ _ _ Hp) as Hin.
  rewrite (upload_eq _ _ _ io2 (File B N2) cs _ Hcs) in E2. simpl in E2.
  rewrite bool_decide_eq_true_2 in E2 by done.
  destruct (io2 Manifests _); [|done]. injection E2 as <- <-.
  simpl in *. split; [done |]. split; [done |].
  rewrite !download_eq. split; intros Hh; f_equal.
  - rewrite <- (reconstruct_safeName _ N1). rewrite Hh in Hrec1.
    rewrite <- Hrec1. unfold reconstruct, safeName.
    rewrite !StrFacts.basename_idemp. simpl.
    rewrite lookup_insert. case_decide; by rewrite ?lookup_insert_eq.
  - rewrite <- (reconstruct_safeName _ N2). by rewrite Hh in Hrec2.
Qed.

(** X18.  A state reached by uploads whose failed chunk writes left no
    file is not corrupt: a download answers NotFound, or the indexed digest
    list is that of blobs which are all stored, each having the digest
    under which it is listed; it then returns their bytes, and fails only
    when the basename is refused as a header value. *)
Theorem reachable_store_consistent (st : state) (name : string) :
  reachable' st →
  (download name st).2 = Err NotFound ∨
  ∃ m ds, fileMeta st !! safeName name = Some m ∧
          chunkHashes m = digest sha256 <$> ds ∧
          signature m = Str.join "-" (chunkHashes m) ∧
          Forall (λ d, chunksDir st !! (digest sha256 d +:+ ".chunk") = Some d) ds ∧
          (download name st).2 =
            if header_ok (safeName name) then Ok (concat ds)
            else Err CorruptStore.
Proof.
  intros Hreach.
  pose proof (store_reachable sha256 chunk_size JSON_stringify JSON_parse U
                chunk_size_pos sha256_length JSON_roundtrip JSON_prefix
                U_collision_free st Hreach) as Hinv.
  rewrite download_eq. simpl. unfold reconstruct.
  destruct (fileMeta st !! safeName name) as [m|] eqn:Em; [|by left].
  right. destruct (metas_ok _ _ _ _ Hinv _ _ Em) as (ds & Hh & Hs & Hst).
  exists m, ds. do 4 (split; [done |]).
  rewrite Hh, (mapM_fmap_Forall_Some _ (digest sha256) ds); done.
Qed.
End StoreConsistency.

(** ** The further properties on concrete runs *)

Lemma st1_reachable (P : oracle → option file → Prop) :
  P io_ok (Some (File Run.B1 "a.pdf")) →
  reachable Toy.sha256 CHUNK_SIZE Toy.stringify Toy.parse P Run.st1.
Proof.
  intros H1. unfold Run.st1, Toy.upload. apply reach_upload; [apply reach_init | done].
Qed.

Lemma st2_reachable (P : oracle → option file → Prop) :
  P io_ok (Some (File Run.B1 "a.pdf")) → P io_ok (Some (File Run.B2 "a.pdf")) →
  reachable Toy.sha256 CHUNK_SIZE Toy.stringify Toy.parse P Run.st2.
Proof.
  intros H1 H2. unfold Run.st2, Toy.upload.
  apply reach_upload; [by apply st1_reachable | done].
Qed.

Lemma upload_frame_witness :
  chunksDir Run.st1 ⊆ chunksDir Run.st2 ∧
  fileSignatures Run.st1 ⊆ fileSignatures Run.st2.
Proof.
  destruct (upload_frame Toy.sha256 CHUNK_SIZE Toy.stringify
              ToyFacts.chunk_size_pos io_ok (Some (File Run.B2 "a.pdf")) Run.st1)
    as (H1 & H2 & _).
  split; [exact H1 | exact H2].
Defined.

Lemma upload_keeps_downloads_witness :
  (download "a.pdf" (Toy.upload io_ok (Some (File Run.B2 "b.pdf")) Run.st1).1).2
    = Ok Run.B1.
Proof.
  apply (upload_keeps_downloads Toy.sha256 CHUNK_SIZE Toy.stringify
           ToyFacts.chunk_size_pos io_ok (Some (File Run.B2 "b.pdf")) Run.st1
           "a.pdf" Run.B1).
  - vm_compute. reflexivity.
  - intros f [= <-] H. vm_compute in H. discriminate.
Defined.

Lemma list_after_upload_witness :
  list_filenames Run.st1 ⊆ list_filenames Cases.st_ab ∧
  list_filenames Cases.st_ab = {["b.pdf"]} ∪ list_filenames Run.st1.
Proof.
  destruct (list_after_upload Toy.sha256 CHUNK_SIZE Toy.stringify
              ToyFacts.chunk_size_pos io_ok (File Run.B1 "b.pdf") Run.st1)
    as (H1 & _ & H3 & _).
  split; [exact H1 |].
  apply (H3 (Response false "b.pdf" 1)). vm_compute. reflexivity.
Defined.

Lemma upload_existing_chunks_witness :
  chunksDir (Toy.upload io_ok (Some (File Run.B1 "c.pdf")) (Toy.restart Run.st2)).1
    = chunksDir (Toy.restart Run.st2).
Proof.
  destruct (upload_existing_chunks Toy.sha256 CHUNK_SIZE Toy.stringify
              ToyFacts.chunk_size_pos io_ok (File Run.B1 "c.pdf")
              (Toy.restart Run.st2)) as (cs & Hcs & H).
  vm_compute in Hcs. injection Hcs as <-.
  apply H. intros c Hc. apply list_elem_of_singleton in Hc. subst c.
  vm_compute. eexists. reflexivity.
Defined.

Lemma upload_new_blobs_witness :
  chunksDir Run.st1 ≠ chunksDir Toy.init ∧
  (∀ k d, chunksDir Cases.st_cut !! k = Some d →
     k = Cases.sig1 +:+ ".chunk" ∧ ∃ n, d = take n Run.B1).
Proof.
  split.
  - destruct (upload_new_blobs Toy.sha256 CHUNK_SIZE Toy.stringify
                ToyFacts.chunk_size_pos io_ok (File Run.B1 "a.pdf") Toy.init)
      as (cs & _ & _ & H).
    apply (H (Response true "a.pdf" 1)); [vm_compute |]; reflexivity.
  - destruct (upload_new_blobs Toy.sha256 CHUNK_SIZE Toy.stringify
                ToyFacts.chunk_size_pos Cases.io_cut_chunks
                (File Run.B1 "a.pdf") Toy.init)
      as (cs & Hcs & H & _).
    vm_compute in Hcs. injection Hcs as <-.
    intros k d Hk. destruct (H k d Hk) as [Hold | (c & Hc & -> & Hd)].
    + rewrite toy_init_eq in Hold. simpl in Hold.
      by rewrite lookup_empty in Hold.
    + apply list_elem_of_singleton in Hc. subst c. split; [reflexivity |].
      destruct Hd as [-> | (n & -> & _)]; [by exists 3 | by exists n].
Defined.

Lemma known_signature_skips_repair_witness :
  (Toy.upload io_ok (Some (File Run.B1 "a.pdf")) Cases.st_lost).2
    = Ok (Response false "a.pdf" 1) ∧
  (download "a.pdf"
     (Toy.upload io_ok (Some (File Run.B1 "a.pdf")) Cases.st_lost).1).2
    = Err CorruptStore.
Proof.
  destruct (known_signature_skips_repair Toy.sha256 CHUNK_SIZE Toy.stringify
              ToyFacts.chunk_size_pos io_ok (File Run.B1 "a.pdf") Cases.st_lost)
    as (cs & Hcs & H).
  vm_compute in Hcs. injection Hcs as <-.
  destruct H as [_ H]; [vm_compute; reflexivity |].
  destruct (H eq_refl) as [H1 H2].
  split; [exact H1 |]. apply H2.
  eexists. split; [apply list_elem_of_singleton; reflexivity |]. apply lookup_empty.
Defined.

Lemma restart_idempotent_witness :
  Toy.restart (Toy.restart Run.st2) = Toy.restart Run.st2.
Proof.
  apply (restart_idempotent Toy.stringify Toy.parse ToyFacts.parse_stringify Run.st2).
Defined.

Lemma saved_manifest_recovered_witness :
  fileMeta (Toy.restart (saveManifest Toy.stringify io_ok "x" "s" ["h"] Toy.init).1)
    !! "x" = Some (Meta "s" ["h"]).
Proof.
  apply (saved_manifest_recovered Toy.stringify Toy.parse
           ToyFacts.parse_stringify io_ok "x" "s" ["h"] Toy.init).
  - rewrite toy_init_eq. intros k t H. simpl in H. by rewrite lookup_empty in H.
  - reflexivity.
Defined.


Lemma st2_commits :
  reachable Toy.sha256 CHUNK_SIZE Toy.stringify Toy.parse commits Run.st2.
Proof. apply st2_reachable; intros f _; reflexivity. Qed.

Lemma st2_recoverable : recoverable Toy.stringify Toy.parse (manifestDir Run.st2).
Proof.
  apply files_recoverable.
  apply (names_commits Toy.sha256 CHUNK_SIZE Toy.stringify Toy.parse
           ToyFacts.chunk_size_pos ToyFacts.parse_stringify).
  apply st2_commits.
Qed.

Lemma rebuilt_signatures_witness :
  Cases.sig2 ∈ fileSignatures (Toy.restart Run.st2).
Proof.
  apply (rebuilt_signatures Toy.stringify Toy.parse ToyFacts.parse_stringify
           Run.st2 Cases.sig2 st2_recoverable).
  exists "a.pdf", [Cases.sig2]. vm_compute. reflexivity.
Defined.

Lemma indexed_signature_known_witness :
  fileMeta Run.st2 !! "a.pdf" = Some (Meta Cases.sig2 [Cases.sig2]) ∧
  Cases.sig2 ∈ fileSignatures Run.st2.
Proof.
  assert (fileMeta Run.st2 !! "a.pdf" = Some (Meta Cases.sig2 [Cases.sig2])) as E
    by (vm_compute; reflexivity).
  split; [exact E |].
  apply (indexed_signature_known Toy.sha256 CHUNK_SIZE Toy.stringify Toy.parse
           ToyFacts.chunk_size_pos ToyFacts.parse_stringify (λ _ _, True)
           Run.st2 (st2_reachable _ I I) "a.pdf" (Meta Cases.sig2 [Cases.sig2]) E).
Defined.

Lemma restart_signatures_current_witness :
  Cases.sig1 ∈ fileSignatures Run.st2 ∧
  Cases.sig1 ∉ fileSignatures (Toy.restart Run.st2).
Proof.
  split; [vm_compute; reflexivity |]. intros Hin.
  apply (restart_signatures_current Toy.sha256 CHUNK_SIZE Toy.stringify Toy.parse
           ToyFacts.chunk_size_pos ToyFacts.parse_stringify Run.st2 Cases.sig1
           st2_commits) in Hin as (n & m & Hn & Hs).
  apply elem_of_map_to_list in Hn.
  assert (map_to_list (fileMeta Run.st2)
            = [("a.pdf", Meta Cases.sig2 [Cases.sig2])]) as E
    by (vm_compute; reflexivity).
  rewrite E in Hn. apply list_elem_of_singleton in Hn. injection Hn as -> ->.
  discriminate Hs.
Defined.


Lemma chunks_never_lost_witness :
  chunksDir Run.st1 ⊆ chunksDir (Cases.run Cases.requests Run.st1).
Proof.
  apply (chunks_never_lost Toy.sha256 CHUNK_SIZE Toy.stringify Toy.parse
           ToyFacts.chunk_size_pos ToyFacts.parse_stringify).
Defined.

Lemma shared_prefix_chunks_witness :
  take 2 (Cases.chunks2 Cases.P1) = take 2 (Cases.chunks2 Cases.P2) ∧
  length (take 2 (Cases.chunks2 Cases.P1)) = 2.
Proof.
  apply (shared_prefix_chunks Toy.sha256 2 Cases.P1 Cases.P2 2);
    try reflexivity; simpl; lia.
Defined.

Lemma io_ok_orderly (B : list byte) (N : string) :
  B = Run.B1 ∨ B = Run.B2 →
  orderly Toy.sha256 CHUNK_SIZE Run.U io_ok (Some (File B N)).
Proof.
  intros H. split; [by apply RunFacts.within_U | intros k E; discriminate].
Qed.

Lemma same_bytes_two_names_witness :
  download "a.pdf" Cases.st_ab = (Cases.st_ab, Ok Run.B1) ∧
  download "b.pdf" Cases.st_ab = (Cases.st_ab, Ok Run.B1).
Proof.
  destruct (same_bytes_two_names Toy.sha256 CHUNK_SIZE Toy.stringify Toy.parse
              Run.U ToyFacts.chunk_size_pos ToyFacts.sha256_length
              ToyFacts.parse_stringify ToyFacts.parse_truncated
              RunFacts.U_collision_free
              Toy.init io_ok io_ok "a.pdf" "b.pdf" Run.B1 Run.st1 Cases.st_ab
              (Response true "a.pdf" 1) (Response false "b.pdf" 1)
              (reach_init _ _ _ _ _)
              (RunFacts.within_U Run.B1 "a.pdf" (or_introl eq_refl))
              ltac:(vm_compute; reflexivity) ltac:(vm_compute; reflexivity))
    as (_ & _ & H1 & H2).
  split; [exact (H1 eq_refl) | exact (H2 eq_refl)].
Defined.

Lemma reachable_store_consistent_witness :
  (download "a.pdf" Run.st2).2 ≠ Err CorruptStore.
Proof.
  destruct (reachable_store_consistent Toy.sha256 CHUNK_SIZE Toy.stringify
              Toy.parse Run.U ToyFacts.chunk_size_pos ToyFacts.sha256_length
              ToyFacts.parse_stringify ToyFacts.parse_truncated
              RunFacts.U_collision_free Run.st2 "a.pdf")
    as [H | (m & ds & _ & _ & _ & _ & H)].
  - apply st2_reachable; apply io_ok_orderly; auto.
  - rewrite H. discriminate.
  - rewrite H. discriminate.
Defined.
